(** * GoFastCrud: schema synthesis, document registry and generic CRUD controller

    A shallow embedding of the swagger [Generator] (type-to-schema
    synthesis, per-entity document assembly, merged views) and of the generic
    [CrudController] (identifier decoding, single and batch operations),
    followed by the properties established about them.

    Conventions of the embedding:
    - Go maps are [gmap]s; a [nil] map and an empty map are both [∅] (the code
      only ranges over, reads and writes them, which does not tell them apart),
      and likewise a [nil] slice and an empty slice are both [[]].
    - [for k, v := range m] visits every entry once in an order Go leaves
      unspecified: the order is a parameter ([RangeOrder]).
    - [reflect.Type] values are finite trees ([GoType]); a self-referential Go
      type has no such tree, and on it the Go code does not return either.
    - Strings are byte strings, as in Go. *)

From Stdlib Require Import ZArith Ascii String.
From stdpp Require Import gmap strings list fin_maps.

#[local] Set Warnings "-register-all,-clear-no-such-hyp".
#[local] Open Scope Z_scope.

(* ===================================================================== *)
(** * Part I: definitions *)
(* ===================================================================== *)

(** ** Go runtime and standard-library helpers *)

(** Iteration order of [range] over a map with string keys: some enumeration
    of the entries, each visited exactly once. *)
Class RangeOrder := {
  range : ∀ {A : Type}, gmap string A → list (string * A);
  range_perm : ∀ (A : Type) (m : gmap string A), range m ≡ₚ map_to_list m
}.

(** One admissible order, used to run the model on concrete inputs. *)
Definition canonical_order : RangeOrder :=
  {| range := λ A (m : gmap string A), map_to_list m;
     range_perm := λ A m, reflexivity (map_to_list m) |}.

(** [strings.Split(s, sep)] for a one-byte separator: the pieces of [s]
    between occurrences of [sep]; one more piece than there are occurrences. *)
Fixpoint strings_Split (s : string) (sep : ascii) : list string :=
  match s with
  | EmptyString => [EmptyString]
  | String c rest =>
      if decide (c = sep) then EmptyString :: strings_Split rest sep
      else match strings_Split rest sep with
           | [] => [String c EmptyString]
           | p :: ps => String c p :: ps
           end
  end.

(** [strings.ReplaceAll(s, old, new)] for a non-empty [old]: occurrences are
    replaced left to right without overlap. [skip] counts the bytes of a
    matched occurrence still to be dropped. *)
Fixpoint replaceAll_from (old new : string) (skip : nat) (s : string) : string :=
  match s with
  | EmptyString => EmptyString
  | String c rest =>
      match skip with
      | S k => replaceAll_from old new k rest
      | O =>
          if String.prefix old s
          then new +:+ replaceAll_from old new (String.length old - 1) rest
          else String c (replaceAll_from old new 0 rest)
      end
  end.

Definition strings_ReplaceAll (s old new : string) : string :=
  replaceAll_from old new 0 s.

(** [strings.Contains(s, substr)]. *)
Fixpoint strings_Contains (s substr : string) : bool :=
  String.prefix substr s ||
  match s with
  | EmptyString => false
  | String _ rest => strings_Contains rest substr
  end.

Module swagger.

(** ** reflect: types, struct fields and tags *)

(** Kinds whose structure the generator never looks into. *)
Inductive BasicKind :=
  | KBool
  | KInt | KInt8 | KInt16 | KInt32 | KInt64
  | KUint | KUint8 | KUint16 | KUint32 | KUint64 | KUintptr
  | KFloat32 | KFloat64 | KComplex64 | KComplex128
  | KString
  | KArray | KChan | KFunc | KInterface | KMap | KUnsafePointer.

(** A struct tag after parsing: key/value pairs in the order written. *)
Definition StructTag := list (string * string).

(** [tag.Get(key)]: the value of the first pair with that key, or [""]. *)
Fixpoint Tag_Get (tag : StructTag) (key : string) : string :=
  match tag with
  | [] => EmptyString
  | (k, v) :: rest => if decide (k = key) then v else Tag_Get rest key
  end.

(** [reflect.StructField], over the type of its [Type] component. *)
Record FieldOf (Ty : Type) := mkField {
  Name : string;
  FType : Ty;
  Tag : StructTag;
  Anonymous : bool
}.
Arguments mkField {Ty} _ _ _ _.
Arguments Name {Ty} _.
Arguments FType {Ty} _.
Arguments Tag {Ty} _.
Arguments Anonymous {Ty} _.

(** [reflect.Type]. [tname] is [t.Name()] (empty for an unnamed type) and
    [tstring] is [t.String()], the package-qualified name. *)
Inductive GoType :=
  | TBasic (k : BasicKind) (tname : string)
  | TPtr (elem : GoType)
  | TSlice (tname : string) (elem : GoType)
  | TStruct (tname tstring : string) (fields : list (FieldOf GoType)).

Definition StructField := FieldOf GoType.

(** [t.Name()]; a pointer type is never a named type. *)
Definition TypeName (t : GoType) : string :=
  match t with
  | TBasic _ n => n
  | TPtr _ => EmptyString
  | TSlice n _ => n
  | TStruct n _ _ => n
  end.

(** The step [if t.Kind() == reflect.Ptr { t = t.Elem() }]. *)
Definition derefPtr (t : GoType) : GoType :=
  match t with
  | TPtr e => e
  | _ => t
  end.

(** ** spec.Schema and the other go-openapi records *)

Inductive Schema := mkSchema {
  SType : list string;
  Format : string;
  Properties : gmap string Schema;
  Required : list string;
  Items : option Schema;
  Description : string;
  SExample : option string;
  Ref : string
}.

(** The zero value [spec.Schema{}]. *)
Definition emptySchema : Schema :=
  mkSchema [] EmptyString ∅ [] None EmptyString None EmptyString.

Definition setType (ty : list string) (s : Schema) : Schema :=
  mkSchema ty (Format s) (Properties s) (Required s) (Items s)
           (Description s) (SExample s) (Ref s).
Definition setFormat (f : string) (s : Schema) : Schema :=
  mkSchema (SType s) f (Properties s) (Required s) (Items s)
           (Description s) (SExample s) (Ref s).
Definition setProperties (p : gmap string Schema) (s : Schema) : Schema :=
  mkSchema (SType s) (Format s) p (Required s) (Items s)
           (Description s) (SExample s) (Ref s).
Definition setRequired (r : list string) (s : Schema) : Schema :=
  mkSchema (SType s) (Format s) (Properties s) r (Items s)
           (Description s) (SExample s) (Ref s).
Definition setItems (i : option Schema) (s : Schema) : Schema :=
  mkSchema (SType s) (Format s) (Properties s) (Required s) i
           (Description s) (SExample s) (Ref s).
Definition setDescription (d : string) (s : Schema) : Schema :=
  mkSchema (SType s) (Format s) (Properties s) (Required s) (Items s)
           d (SExample s) (Ref s).
Definition setExample (e : option string) (s : Schema) : Schema :=
  mkSchema (SType s) (Format s) (Properties s) (Required s) (Items s)
           (Description s) e (Ref s).

(** ** generateSchema and getFieldSchema *)

(** [Schema{Type: ["array"], Items: elemSchema}]. *)
Definition arraySchema (elemSchema : Schema) : Schema :=
  setItems (Some elemSchema) (setType ["array"%string] emptySchema).

(** [Schema{Type: ["object"]}], the fallback for a non-struct type. *)
Definition objectSchema : Schema := setType ["object"%string] emptySchema.

(** The name a field is published under: the [json] tag up to its first
    comma when the tag is not empty, the declared name otherwise. *)
Definition fieldName (field : StructField) : string :=
  let jsonTag := Tag_Get (Tag field) "json" in
  if decide (jsonTag = EmptyString) then Name field
  else default EmptyString (head (strings_Split jsonTag ","%char)).

Section Generator.
Context {order : RangeOrder}.

(** [for name, prop := range src { dst[name] = prop }]. *)
Definition spliceProperties (src dst : gmap string Schema) : gmap string Schema :=
  foldl (λ acc kv, <[kv.1 := kv.2]> acc) dst (range src).

(** Body of [getFieldSchema], with [generateSchema] passed in as [gen]. *)
Definition getFieldSchema_with (gen : GoType → Schema) (field : StructField) : Schema :=
  let schema := emptySchema in
  let description := Tag_Get (Tag field) "description" in
  let schema :=
    if decide (description = EmptyString) then schema
    else setDescription description schema in
  let example := Tag_Get (Tag field) "example" in
  let schema :=
    if decide (example = EmptyString) then schema
    else setExample (Some example) schema in
  match FType field with
  | TBasic KString _ => setType ["string"%string] schema
  | TBasic KInt _ | TBasic KInt8 _ | TBasic KInt16 _ | TBasic KInt32 _ =>
      setType ["integer"%string] schema
  | TBasic KInt64 _ => setFormat "int64" (setType ["integer"%string] schema)
  | TBasic KUint _ | TBasic KUint8 _ | TBasic KUint16 _ | TBasic KUint32 _ =>
      setType ["integer"%string] schema
  | TBasic KUint64 _ => setFormat "int64" (setType ["integer"%string] schema)
  | TBasic KFloat32 _ => setType ["number"%string] schema
  | TBasic KFloat64 _ => setFormat "double" (setType ["number"%string] schema)
  | TBasic KBool _ => setType ["boolean"%string] schema
  | TStruct _ tstring _ =>
      if decide (tstring = "time.Time"%string)
      then setFormat "date-time" (setType ["string"%string] schema)
      else gen (FType field)
  | TPtr elem => gen elem
  | TSlice _ elem => setItems (Some (gen elem)) (setType ["array"%string] schema)
  | TBasic _ _ => schema
  end.

(** One iteration of the loop over [t.Field(i)] in [generateSchema]. *)
Definition fieldStep (gen : GoType → Schema) (schema : Schema) (field : StructField) : Schema :=
  if Anonymous field then
    let embeddedSchema := gen (FType field) in
    setProperties (spliceProperties (Properties embeddedSchema) (Properties schema)) schema
  else
    let jsonTag := Tag_Get (Tag field) "json" in
    if decide (jsonTag = "-"%string) then schema
    else
      let name := fieldName field in
      let fieldSchema := getFieldSchema_with gen field in
      let schema := setProperties (<[name := fieldSchema]> (Properties schema)) schema in
      if decide (Tag_Get (Tag field) "binding" = "required"%string)
      then setRequired (Required schema ++ [name]) schema
      else schema.

Fixpoint generateSchema (t : GoType) {struct t} : Schema :=
  match derefPtr t with
  | TSlice _ elem => arraySchema (generateSchema elem)
  | TStruct _ _ fields => foldl (fieldStep generateSchema) objectSchema fields
  | _ => objectSchema
  end.

Definition getFieldSchema (field : StructField) : Schema :=
  getFieldSchema_with generateSchema field.

End Generator.

(** ** Operations, path items and documents *)

Record OpParameter := mkParameter {
  Param_Name : string;
  Param_In : string;
  Param_Description : string;
  Param_Required : bool;
  Param_Schema : option Schema;
  Param_Type : string
}.

Record Response := mkResponse {
  Resp_Description : string;
  Resp_Schema : option Schema
}.

Record Operation := mkOperation {
  Op_Tags : list string;
  Op_Summary : string;
  Op_Description : string;
  Op_Parameters : list OpParameter;
  Op_StatusCodeResponses : gmap Z Response
}.

Record PathItem := mkPathItem {
  Get : option Operation;
  Post : option Operation;
  Put : option Operation;
  Delete : option Operation
}.

Record Tag_ := mkTag {
  Tag_Name : string;
  Tag_Description : string
}.

Record Info := mkInfo {
  Title : string;
  Info_Description : string;
  Version : string
}.

(** [spec.Swagger]; [SwaggerVersion] is its field [Swagger]. *)
Record Swagger := mkSwagger {
  SwaggerVersion : string;
  SwInfo : Info;
  Host : string;
  BasePath : string;
  Schemes : list string;
  Consumes : list string;
  Produces : list string;
  Paths : gmap string PathItem;
  Definitions : gmap string Schema;
  Tags : list Tag_
}.

Definition setPaths (p : gmap string PathItem) (d : Swagger) : Swagger :=
  mkSwagger (SwaggerVersion d) (SwInfo d) (Host d) (BasePath d) (Schemes d)
            (Consumes d) (Produces d) p (Definitions d) (Tags d).
Definition setDefinitions (defs : gmap string Schema) (d : Swagger) : Swagger :=
  mkSwagger (SwaggerVersion d) (SwInfo d) (Host d) (BasePath d) (Schemes d)
            (Consumes d) (Produces d) (Paths d) defs (Tags d).
Definition setTags (ts : list Tag_) (d : Swagger) : Swagger :=
  mkSwagger (SwaggerVersion d) (SwInfo d) (Host d) (BasePath d) (Schemes d)
            (Consumes d) (Produces d) (Paths d) (Definitions d) ts.

(** [types.APIRoute]. [Request] and [Response] hold a sample value of which
    only [reflect.TypeOf] is used: [None] is the [nil] interface. *)
Record APIRoute := mkRoute {
  Route_Path : string;
  Method : string;
  Route_Tags : list string;
  Summary : string;
  Route_Description : string;
  Request : option GoType;
  Route_Response : option GoType
}.

(** The generator: its registry of documents, keyed by [routePath_version]. *)
Record Generator := mkGenerator {
  docs : gmap string Swagger
}.

Definition NewGenerator : Generator := mkGenerator ∅.

Section Documents.
Context {order : RangeOrder}.

Definition generateOperation (route : APIRoute) (entityName : string) : Operation :=
  let parameters := [] in
  let parameters :=
    if strings_Contains (Route_Path route) ":id"
    then parameters ++ [mkParameter "id" "path" "Entity ID" true None "integer"]
    else parameters in
  let parameters :=
    if decide (Method route = "POST"%string ∨ Method route = "PUT"%string) then
      let schema :=
        match Request route with
        | Some reqType => generateSchema reqType
        | None =>
            mkSchema [] EmptyString ∅ [] None EmptyString None
                     ("#/definitions/" +:+ entityName)
        end in
      parameters ++ [mkParameter "body" "body" "Request body" true (Some schema) EmptyString]
    else parameters in
  let responses :=
    match Route_Response route with
    | Some respType => {[ 200 := mkResponse "Success" (Some (generateSchema respType)) ]}
    | None => ∅
    end in
  mkOperation (Route_Tags route) (Summary route) (Route_Description route)
              parameters responses.

(** The [switch route.Method] that files an operation in a path item. *)
Definition setMethod (pathItem : PathItem) (method : string) (operation : Operation) : PathItem :=
  if decide (method = "GET"%string) then
    mkPathItem (Some operation) (Post pathItem) (Put pathItem) (Delete pathItem)
  else if decide (method = "POST"%string) then
    mkPathItem (Get pathItem) (Some operation) (Put pathItem) (Delete pathItem)
  else if decide (method = "PUT"%string) then
    mkPathItem (Get pathItem) (Post pathItem) (Some operation) (Delete pathItem)
  else if decide (method = "DELETE"%string) then
    mkPathItem (Get pathItem) (Post pathItem) (Put pathItem) (Some operation)
  else pathItem.

(** Grouping of the routes by documented path (first loop). *)
Definition groupRoutes (routePath : string) (allRoutes : list APIRoute)
  : gmap string (list APIRoute) :=
  foldl (λ routeGroups route,
           let path := "/" +:+ routePath +:+ Route_Path route in
           let path := strings_ReplaceAll path ":id" "{id}" in
           <[path := default [] (routeGroups !! path) ++ [route]]> routeGroups)
        ∅ allRoutes.

(** Second loop: one path item per group. *)
Definition buildPaths (entityName : string) (routeGroups : gmap string (list APIRoute))
  : gmap string PathItem :=
  foldl (λ paths kv,
           let pathItem :=
             foldl (λ pathItem route,
                      setMethod pathItem (Method route) (generateOperation route entityName))
                   (mkPathItem None None None None) kv.2 in
           <[kv.1 := pathItem]> paths)
        ∅ (range routeGroups).

(** The handling of one sample value ([route.Request] or [route.Response])
    in the loop that collects request and response models. *)
Definition collectSample (entityName : string) (sample : option GoType)
    (definitions : gmap string Schema) : gmap string Schema :=
  match sample with
  | None => definitions
  | Some ty =>
      let reqType := derefPtr ty in
      let reqName := TypeName reqType in
      if decide (reqName ≠ EmptyString ∧ reqName ≠ entityName)
      then <[reqName := generateSchema reqType]> definitions
      else definitions
  end.

Definition collectRoute (entityName : string) (definitions : gmap string Schema)
    (route : APIRoute) : gmap string Schema :=
  collectSample entityName (Route_Response route)
    (collectSample entityName (Request route) definitions).

(** Third loop, started from the definitions seeded with the entity. *)
Definition collectDefinitions (entityName : string)
    (visited : list (string * list APIRoute))
    (definitions : gmap string Schema) : gmap string Schema :=
  foldl (λ defs kv, foldl (collectRoute entityName) defs kv.2) definitions visited.

(** The document [RegisterEntityWithVersion] assembles. [allRoutes] is what
    the type switch on the controller obtained ([[]] when the controller
    exposes no routes). *)
Definition assembleDocument (entityType : GoType) (basePath routePath : string)
    (allRoutes : list APIRoute) (version : string) : Swagger :=
  let entityType := derefPtr entityType in
  let entityName := TypeName entityType in
  let routeGroups := groupRoutes routePath allRoutes in
  let paths := buildPaths entityName routeGroups in
  let definitions := <[entityName := generateSchema entityType]> ∅ in
  let definitions := collectDefinitions entityName (range routeGroups) definitions in
  mkSwagger EmptyString
    (mkInfo (entityName +:+ " API")
            ("API documentation for " +:+ entityName)
            version)
    EmptyString basePath [] [] []
    paths definitions
    [mkTag entityName ("Operations about " +:+ entityName)].

Definition RegisterEntityWithVersion (g : Generator) (entityType : GoType)
    (basePath routePath : string) (allRoutes : list APIRoute) (version : string)
    : Generator :=
  mkGenerator
    (<[routePath +:+ "_" +:+ version :=
         assembleDocument entityType basePath routePath allRoutes version]> (docs g)).

Definition GetSwagger (g : Generator) (entityPath : string) : option Swagger :=
  docs g !! entityPath.

(** *** Merged views *)

(** The version a registry key is filed under by [GetAllSwagger]: the last
    piece of the key split at ["_"]; [None] when there are fewer than two
    pieces (the entry is skipped). *)
Definition keyVersion (path : string) : option string :=
  let parts := strings_Split path "_"%char in
  if decide (length parts < 2)%nat then None else last parts.

(** The empty document [GetAllSwagger] creates for a version. *)
Definition newVersionDoc (version : string) : Swagger :=
  mkSwagger "2.0"
    (mkInfo ("Fast CRUD API (" +:+ version +:+ ")")
            ("Auto-generated API documentation for version " +:+ version)
            version)
    EmptyString ("/api/" +:+ version) ["http"%string]
    ["application/json"%string] ["application/json"%string]
    ∅ ∅ [].

Definition mergePaths (src dst : gmap string PathItem) : gmap string PathItem :=
  foldl (λ acc kv, <[kv.1 := kv.2]> acc) dst (range src).

(** [for name, schema := range src { if _, exists := dst[name]; !exists
    { dst[name] = schema } }]. *)
Definition mergeDefinitionsKeep (src dst : gmap string Schema) : gmap string Schema :=
  foldl (λ acc kv, match acc !! kv.1 with
                   | Some _ => acc
                   | None => <[kv.1 := kv.2]> acc
                   end) dst (range src).

(** The tag merge of [GetAllSwagger]: [tagMap] is filled from the tags the
    version document already has, before the loop, and not updated in it. *)
Definition mergeTagsDedup (src dst : list Tag_) : list Tag_ :=
  let tagMap : gset string := list_to_set (Tag_Name <$> dst) in
  foldl (λ acc tag, if decide (Tag_Name tag ∈ tagMap) then acc else acc ++ [tag])
        dst src.

(** The three merges of [GetAllSwagger] of one stored document [swagger]
    into the version document [doc]: paths, definitions, tags. *)
Definition mergeDoc (doc swagger : Swagger) : Swagger :=
  let doc := setPaths (mergePaths (Paths swagger) (Paths doc)) doc in
  let doc := setDefinitions
               (mergeDefinitionsKeep (Definitions swagger) (Definitions doc)) doc in
  setTags (mergeTagsDedup (Tags swagger) (Tags doc)) doc.

(** One iteration of the loop of [GetAllSwagger] over [g.docs]. *)
Definition mergeIntoVersion (versionDocs : gmap string Swagger)
    (entry : string * Swagger) : gmap string Swagger :=
  let '(path, swagger) := entry in
  match keyVersion path with
  | None => versionDocs
  | Some version =>
      let doc := default (newVersionDoc version) (versionDocs !! version) in
      <[version := mergeDoc doc swagger]> versionDocs
  end.

(** [GetAllSwagger] on the entries of [g.docs] in the order visited. *)
Definition GetAllSwagger_visit (visited : list (string * Swagger)) : gmap string Swagger :=
  foldl mergeIntoVersion ∅ visited.

Definition GetAllSwagger (g : Generator) : gmap string Swagger :=
  GetAllSwagger_visit (range (docs g)).

(** The empty document [mergeSwaggers] starts from. *)
Definition newMergedDoc : Swagger :=
  mkSwagger "2.0"
    (mkInfo "Fast CRUD API" "Auto-generated API documentation" "1.0")
    "localhost:8080" "/api/v1" ["http"%string]
    ["application/json"%string] ["application/json"%string]
    ∅ ∅ [].

(** [for name, schema := range src { dst[name] = schema }]. *)
Definition mergeDefinitionsOverwrite (src dst : gmap string Schema) : gmap string Schema :=
  foldl (λ acc kv, <[kv.1 := kv.2]> acc) dst (range src).

(** One iteration of the loop of [mergeSwaggers] over [g.docs]. *)
Definition mergeInto (merged : Swagger) (entry : string * Swagger) : Swagger :=
  let swagger := entry.2 in
  let merged := setPaths (mergePaths (Paths swagger) (Paths merged)) merged in
  let merged := setDefinitions
                  (mergeDefinitionsOverwrite (Definitions swagger) (Definitions merged))
                  merged in
  setTags (Tags merged ++ Tags swagger) merged.

Definition mergeSwaggers_visit (visited : list (string * Swagger)) : Swagger :=
  foldl mergeInto newMergedDoc visited.

Definition mergeSwaggers (g : Generator) : Swagger :=
  mergeSwaggers_visit (range (docs g)).

(** *** Notions the properties are stated with *)

(** The full merge as the specification words it: the fold of
    [GetAllSwagger] with the version ignored, from the fixed defaults. *)
Definition mergeSwaggers_spec_visit (visited : list (string * Swagger)) : Swagger :=
  foldl (λ merged entry, mergeDoc merged entry.2) newMergedDoc visited.

Definition mergeSwaggers_spec (g : Generator) : Swagger :=
  mergeSwaggers_spec_visit (range (docs g)).

(** The stored documents filed under [version], in the order visited. *)
Definition versionGroup (version : string) (visited : list (string * Swagger))
  : list Swagger :=
  snd <$> filter (λ entry, keyVersion entry.1 = Some version) visited.

(** The sample values the third loop of [RegisterEntityWithVersion] looks
    at, in the order it does: per route, the request then the response. *)
Definition samplesVisited (visited : list (string * list APIRoute))
  : list (option GoType) :=
  visited ≫= (λ kv, kv.2 ≫= (λ route, [Request route; Route_Response route])).

(** What a field writes into the [properties] of its struct. *)
Definition fieldWrites (field : StructField) : gmap string Schema :=
  if Anonymous field then Properties (generateSchema (FType field))
  else if decide (Tag_Get (Tag field) "json" = "-"%string) then ∅
  else {[ fieldName field := getFieldSchema field ]}.

End Documents.

(** Tags deduplicated by name, the first occurrence kept. *)
Fixpoint dedupTags_from (seen : gset string) (tags : list Tag_) : list Tag_ :=
  match tags with
  | [] => []
  | tag :: rest =>
      if decide (Tag_Name tag ∈ seen) then dedupTags_from seen rest
      else tag :: dedupTags_from ({[Tag_Name tag]} ∪ seen) rest
  end.

Definition dedupTags (tags : list Tag_) : list Tag_ := dedupTags_from ∅ tags.

(** The name under which a sample value enters [definitions], if it does. *)
Definition sampleName (entityName : string) (sample : option GoType) : option string :=
  match sample with
  | None => None
  | Some ty =>
      let name := TypeName (derefPtr ty) in
      if decide (name ≠ EmptyString ∧ name ≠ entityName) then Some name else None
  end.

(** A field carries the required marker. *)
Definition markedRequired (field : StructField) : bool :=
  bool_decide (Tag_Get (Tag field) "binding" = "required"%string).

(** A field the loop of [generateSchema] reaches the required-marker test
    with, and which passes it: named, not skipped, marked. *)
Definition entersRequired (field : StructField) : bool :=
  negb (Anonymous field)
  && bool_decide (Tag_Get (Tag field) "json" ≠ "-"%string)
  && markedRequired field.

(** The published names of the fields of a struct that carry the required
    marker, those of embedded structs included (fields skipped by [json:"-"]
    have no published name). *)
Fixpoint markedNames (t : GoType) {struct t} : list string :=
  match derefPtr t with
  | TStruct _ _ fields =>
      flat_map (λ field : StructField,
                  if Anonymous field then markedNames (FType field)
                  else if entersRequired field then [fieldName field] else [])
               fields
  | _ => []
  end.

(** How often [name] occurs in a list of names. *)
Definition occurrences (name : string) (names : list string) : nat :=
  length (filter (λ n, n = name) names).

(** The generators reachable by registrations from [NewGenerator]. *)
Inductive registered `{RangeOrder} : Generator → Prop :=
  | registered_new : registered NewGenerator
  | registered_entity g entityType basePath routePath allRoutes version :
      registered g →
      registered (RegisterEntityWithVersion g entityType basePath routePath
                                            allRoutes version).

(** *** Further notions the properties are stated with *)

(** The path a route is documented under: ["/" + routePath + route.Path]
    with [":id"] replaced by ["{id}"]. *)
Definition documentedPath (routePath : string) (route : APIRoute) : string :=
  strings_ReplaceAll ("/" +:+ routePath +:+ Route_Path route) ":id" "{id}".

(** The operation a path item holds for an HTTP method. *)
Definition operationAt (pathItem : PathItem) (method : string) : option Operation :=
  if decide (method = "GET"%string) then Get pathItem
  else if decide (method = "POST"%string) then Post pathItem
  else if decide (method = "PUT"%string) then Put pathItem
  else if decide (method = "DELETE"%string) then Delete pathItem
  else None.

(** The field types whose schema [getFieldSchema] takes over whole from
    [generateSchema]: pointers, and structs other than [time.Time]. *)
Definition inlinedType (t : GoType) : bool :=
  match t with
  | TPtr _ => true
  | TStruct _ tstring _ => bool_decide (tstring ≠ "time.Time"%string)
  | _ => false
  end.

(** A field that leaves the schema of its struct as it is: a named field
    skipped by [json:"-"], or an embedded field whose type, after the pointer
    step, is not a struct. *)
Definition inertField (field : StructField) : bool :=
  if Anonymous field then
    match derefPtr (FType field) with
    | TStruct _ _ _ => false
    | _ => true
    end
  else bool_decide (Tag_Get (Tag field) "json" = "-"%string).

(** The path item built for the routes of one group (inner loop of the
    second loop of [RegisterEntityWithVersion]). *)
Definition pathItemOf `{RangeOrder} (entityName : string) (routes : list APIRoute)
    : PathItem :=
  foldl (λ pathItem route,
           setMethod pathItem (Method route) (generateOperation route entityName))
        (mkPathItem None None None None) routes.

(** The fields of a document other than its paths, definitions and tags. *)
Definition header (d : Swagger)
    : string * Info * string * string * list string * list string * list string :=
  (SwaggerVersion d, SwInfo d, Host d, BasePath d, Schemes d, Consumes d, Produces d).

(** The struct type an embedded field brings in: [T] for a field declared
    as [T] or as [*T] (Go allows an embedded field no deeper pointer), none
    when the embedded type is not a struct. *)
Definition embeddedStruct (t : GoType) : option GoType :=
  match t with
  | TStruct _ _ _ => Some t
  | TPtr (TStruct tname tstring fields) => Some (TStruct tname tstring fields)
  | _ => None
  end.

(** The schema that the first document of [stored] defining [name] gives
    it, and the one the last such document gives it. *)
Fixpoint firstSchema (name : string) (stored : list Swagger) : option Schema :=
  match stored with
  | [] => None
  | d :: rest =>
      match Definitions d !! name with
      | Some schema => Some schema
      | None => firstSchema name rest
      end
  end.

Definition lastSchema (name : string) (stored : list Swagger) : option Schema :=
  firstSchema name (reverse stored).

End swagger.

Module crud.

(** ** Errors, identifiers and outcomes *)

(** The error codes of [pkg/errors] the controller uses. *)
Inductive ErrorCode := ErrNotFound | ErrInvalidParam.

(** An [error] value: one built by [errors.New(code, msg)], or one handed
    back by a collaborator (JSON binding, validation, repository). *)
Inductive Error :=
  | AppError (code : ErrorCode) (msg : string)
  | BindError (msg : string)
  | ValidationError (msg : string)
  | RepositoryError (msg : string).

Definition errors_New (code : ErrorCode) (msg : string) : Error := AppError code msg.

(** [uuid.UUID]: sixteen bytes. *)
Definition UUID := list Z.

(** The type argument [TID] of a controller instantiation: one of the two
    identifier representations. *)
Inductive IDType := TUint64 | TUUID.

#[export] Instance IDType_eq_dec : EqDecision IDType.
Proof. solve_decision. Defined.

(** An identifier boxed in an interface value ([any(x)]): the value together
    with its dynamic type. *)
Inductive Any :=
  | AnyUint64 (n : Z)
  | AnyUUID (u : UUID).

Definition dynType (v : Any) : IDType :=
  match v with
  | AnyUint64 _ => TUint64
  | AnyUUID _ => TUUID
  end.

(** [var idTID TID]: the zero value of the type. *)
Definition zeroValue (T : IDType) : Any :=
  match T with
  | TUint64 => AnyUint64 0
  | TUUID => AnyUUID (replicate 16 0)
  end.

(** What a handler run produces: its two Go results ([Ok] for a [nil] error,
    [Fail] otherwise), or a run-time panic. *)
Inductive Outcome (A : Type) :=
  | Ok (a : A)
  | Fail (err : Error)
  | Panic (msg : string).
Arguments Ok {A} _.
Arguments Fail {A} _.
Arguments Panic {A} _.

(** [v, ok := x.(T)]: [None] stands for [ok = false]. *)
Definition typeAssert (T : IDType) (x : Any) : option Any :=
  if decide (dynType x = T) then Some x else None.

(** [x.(T)] without [ok]: a failed assertion panics. *)
Definition mustAssert (T : IDType) (x : Any) : Outcome Any :=
  match typeAssert T x with
  | Some v => Ok v
  | None => Panic "interface conversion"
  end.

(** ** Reference models of the two parsers

    [strconv.ParseUint] and [uuid.Parse] belong to the Go standard library and
    to [google/uuid]. The controller takes them as parameters below; these
    models serve to run it on concrete identifiers. *)

Definition maxUint64 : Z := 2 ^ 64 - 1.

(** [strconv.ParseUint(s, 10, 64)]: [None] stands for a non-nil error. *)
Fixpoint parseUint_digits (s : string) (n : Z) : option Z :=
  match s with
  | EmptyString => Some n
  | String c rest =>
      let b := Z.of_N (N_of_ascii c) in
      if (48 <=? b) && (b <=? 57) then
        let d := b - 48 in
        if maxUint64 / 10 + 1 <=? n then None
        else
          let n := n * 10 in
          let n1 := (n + d) mod 2 ^ 64 in
          if (n1 <? n) || (maxUint64 <? n1) then None
          else parseUint_digits rest n1
      else None
  end.

Definition ParseUint_10_64 (s : string) : option Z :=
  match s with
  | EmptyString => None
  | _ => parseUint_digits s 0
  end.

Definition hexValue (c : ascii) : option Z :=
  let b := Z.of_N (N_of_ascii c) in
  if (48 <=? b) && (b <=? 57) then Some (b - 48)
  else if (97 <=? b) && (b <=? 102) then Some (b - 87)
  else if (65 <=? b) && (b <=? 70) then Some (b - 55)
  else None.

(** [xtob(s[x], s[x+1])]. *)
Definition xtob_at (s : string) (x : nat) : option Z :=
  c1 ← String.get x s;
  c2 ← String.get (S x) s;
  b1 ← hexValue c1;
  b2 ← hexValue c2;
  Some (Z.lor (Z.shiftl b1 4) b2).

Definition asciiLower (c : ascii) : ascii :=
  let b := N_of_ascii c in
  if ((65 <=? b) && (b <=? 90))%N then ascii_of_N (b + 32) else c.

Fixpoint stringLower (s : string) : string :=
  match s with
  | EmptyString => EmptyString
  | String c rest => String (asciiLower c) (stringLower rest)
  end.

(** The hyphenated form [xxxxxxxx-xxxx-xxxx-xxxx-xxxxxxxxxxxx]. *)
Definition parseHyphenated (s : string) : option UUID :=
  if decide (String.get 8 s = Some "-"%char ∧ String.get 13 s = Some "-"%char ∧
             String.get 18 s = Some "-"%char ∧ String.get 23 s = Some "-"%char)
  then mapM (xtob_at s) [0; 2; 4; 6; 9; 11; 14; 16; 19; 21; 24; 26; 28; 30; 32; 34]%nat
  else None.

(** [uuid.Parse(s)]: [None] stands for a non-nil error. *)
Definition uuid_Parse (s : string) : option UUID :=
  let n := String.length s in
  if decide (n = 36)%nat then parseHyphenated s
  else if decide (n = 45)%nat then
    if decide (stringLower (String.substring 0 9 s) = "urn:uuid:"%string)
    then parseHyphenated (String.substring 9 36 s)
    else None
  else if decide (n = 38)%nat then parseHyphenated (String.substring 1 37 s)
  else if decide (n = 32)%nat then
    mapM (xtob_at s) ((λ i, 2 * i)%nat <$> seq 0 16)
  else None.

(** ** Entities, requests and the repository *)

(** The entity interface: its identifier can be read and set. *)
Class ICrudEntity (T : Type) := {
  GetID : T → Any;
  SetID : T → Any → T;
  GetID_SetID : ∀ (e : T) (id : Any), GetID (SetID e id) = id
}.

(** What the handlers read from a [gin.Context]: path parameters, and the
    result of binding the JSON body to each of the three targets the handlers
    bind to. *)
Record Context (T : Type) := mkContext {
  Param : string → string;
  BindEntity : Error + T;
  BindEntities : Error + list T;
  BindIds : Error + list Any
}.
Arguments mkContext {T} _ _ _ _.
Arguments Param {T} _ _.
Arguments BindEntity {T} _.
Arguments BindEntities {T} _.
Arguments BindIds {T} _.

(** [IRepository[T, TID]] over a storage state [Store]. An operation that
    receives a pointer or a slice also gives back what the caller then sees
    behind it. The options argument of [DeleteById], always
    [options.NewDeleteOptions()], is left out. *)
Record IRepository (T Store : Type) := mkRepository {
  Repo_FindById : Any → Store → Error + option T;
  Repo_Update : T → Store → option Error * T * Store;
  Repo_DeleteById : Any → Store → option Error * Store;
  Repo_BatchCreate : list T → Store → option Error * list T * Store;
  Repo_BatchUpdate : list T → Store → option Error * list T * Store;
  Repo_BatchDelete : list Any → Store → option Error * Store
}.
Arguments mkRepository {T Store} _ _ _ _ _ _.
Arguments Repo_FindById {T Store} _ _ _.
Arguments Repo_Update {T Store} _ _ _.
Arguments Repo_DeleteById {T Store} _ _ _.
Arguments Repo_BatchCreate {T Store} _ _ _.
Arguments Repo_BatchUpdate {T Store} _ _ _.
Arguments Repo_BatchDelete {T Store} _ _ _.

(** Modelled from the spec: [IRepository.Transaction] is not among the
    sources. It runs [fn] against a repository handle scoped to one atomic unit
    of work, commits only if [fn] returns no error and rolls back otherwise.
    [A] is what [fn] leaves in the caller's memory, which no rollback undoes. *)
Definition Transaction {T Store A : Type} (R : IRepository T Store)
    (fn : IRepository T Store → Store → option Error * A * Store)
    (s : Store) : option Error * A * Store :=
  match fn R s with
  | (None, a, s') => (None, a, s')
  | (Some err, a, _) => (Some err, a, s)
  end.

(** What [Responser.Success] wraps. *)
Inductive Payload (T : Type) :=
  | PEntity (e : T)
  | PEntities (es : list T)
  | PNil.
Arguments PEntity {T} _.
Arguments PEntities {T} _.
Arguments PNil {T}.

Inductive Reply (T : Type) :=
  | Success (data : Payload T).
Arguments Success {T} _.

(** ** The handlers *)

(** A handler: from the storage state to an outcome and the state it leaves. *)
Definition Handler (Store A : Type) : Type := Store → Outcome A * Store.

Definition ret {Store A} (a : A) : Handler Store A := λ s, (Ok a, s).
Definition fail {Store A} (err : Error) : Handler Store A := λ s, (Fail err, s).
Definition lift {Store A} (o : Outcome A) : Handler Store A := λ s, (o, s).
Definition bind {Store A B} (m : Handler Store A) (k : A → Handler Store B)
    : Handler Store B :=
  λ s, match m s with
       | (Ok a, s') => k a s'
       | (Fail err, s') => (Fail err, s')
       | (Panic msg, s') => (Panic msg, s')
       end.

Notation "'let*' x := m 'in' k" := (bind m (λ x, k))
  (at level 10, x name, m at level 100, k at level 200, only parsing).

(** [if err := f(); err != nil { return nil, err }] for a collaborator that
    reports an optional error. *)
Definition check {Store} (err : option Error) : Handler Store unit :=
  match err with
  | Some e => fail e
  | None => ret tt
  end.

(** The same for a collaborator that yields a value or an error. *)
Definition try {Store A} (r : Error + A) : Handler Store A :=
  match r with
  | inl e => fail e
  | inr a => ret a
  end.

Section Controller.
Context {T Store : Type} `{!ICrudEntity T}.

(** The controller instantiation: its [TID] and its repository. *)
Record CrudController := mkController {
  TID : IDType;
  Repository : IRepository T Store
}.

(** The package-level collaborators. *)
Variable uuid_Parse : string → option UUID.
Variable strconv_ParseUint : string → option Z.
Variable validator_Validate : T → option Error.

Variable c : CrudController.

(** The identifier decoding of [GetById] (the [if]/[else if]/[else] chain). *)
Definition decodeId (id : string) : Outcome Any :=
  let idTID := zeroValue (TID c) in
  match uuid_Parse id with
  | Some idUUID =>
      match typeAssert (TID c) idTID with
      | Some _ => mustAssert (TID c) (AnyUUID idUUID)
      | None => Fail (errors_New ErrInvalidParam "invalid id parameter type")
      end
  | None =>
      match strconv_ParseUint id with
      | Some idInt =>
          match typeAssert (TID c) idTID with
          | Some _ => mustAssert (TID c) (AnyUint64 idInt)
          | None => Fail (errors_New ErrInvalidParam "invalid id parameter type")
          end
      | None => Fail (errors_New ErrInvalidParam "invalid id parameter")
      end
  end.

Definition GetById (ctx : Context T) : Handler Store (Reply T) :=
  let id := Param ctx "id" in
  if decide (id = EmptyString)
  then fail (errors_New ErrNotFound "missing id parameter")
  else
    let* idTID := lift (decodeId id) in
    let* entity := (λ s, try (Repo_FindById (Repository c) idTID s) s) in
    match entity with
    | None => fail (errors_New ErrNotFound "record not found")
    | Some e => ret (Success (PEntity e))
    end.

Definition Update (ctx : Context T) : Handler Store (Reply T) :=
  let id := Param ctx "id" in
  if decide (id = EmptyString)
  then fail (errors_New ErrNotFound "missing id parameter")
  else
    let* entity := try (BindEntity ctx) in
    let* _ := check (validator_Validate entity) in
    match strconv_ParseUint id with
    | None => fail (errors_New ErrNotFound "invalid id format")
    | Some idInt =>
        let* idTID := lift (mustAssert (TID c) (AnyUint64 idInt)) in
        let entity := SetID entity idTID in
        let* entity :=
          (λ s, let '(err, entity, s') := Repo_Update (Repository c) entity s in
                match err with
                | Some e => (Fail e, s')
                | None => (Ok entity, s')
                end) in
        ret (Success (PEntity entity))
    end.

Definition Delete (ctx : Context T) : Handler Store (Reply T) :=
  let id := Param ctx "id" in
  if decide (id = EmptyString)
  then fail (errors_New ErrNotFound "missing id parameter")
  else
    match strconv_ParseUint id with
    | None => fail (errors_New ErrNotFound "invalid id format")
    | Some idInt =>
        let* idTID := lift (mustAssert (TID c) (AnyUint64 idInt)) in
        let* _ := (λ s, let '(err, s') := Repo_DeleteById (Repository c) idTID s in
                        check err s') in
        ret (Success PNil)
    end.

(** [for _, entity := range entities { if err := Validate(entity); ... }]. *)
Fixpoint validateEach (entities : list T) : option Error :=
  match entities with
  | [] => None
  | entity :: rest =>
      match validator_Validate entity with
      | Some err => Some err
      | None => validateEach rest
      end
  end.

(** The tail shared by the batch handlers: run [op] in a transaction and
    return its error, or the entities as the transaction left them. *)
Definition inTransaction {A} (op : IRepository T Store → Store → option Error * A * Store)
    : Handler Store A :=
  λ s, let '(err, a, s') := Transaction (Repository c) op s in
       match err with
       | Some e => (Fail e, s')
       | None => (Ok a, s')
       end.

Definition BatchCreate (ctx : Context T) : Handler Store (Reply T) :=
  let* entities := try (BindEntities ctx) in
  let* _ := check (validateEach entities) in
  let* entities := inTransaction (λ tx, Repo_BatchCreate tx entities) in
  ret (Success (PEntities entities)).

Definition BatchUpdate (ctx : Context T) : Handler Store (Reply T) :=
  let* entities := try (BindEntities ctx) in
  let* _ := check (validateEach entities) in
  let* entities := inTransaction (λ tx, Repo_BatchUpdate tx entities) in
  ret (Success (PEntities entities)).

Definition BatchDelete (ctx : Context T) : Handler Store (Reply T) :=
  let* ids := try (BindIds ctx) in
  if decide (length ids = 0)%nat
  then fail (errors_New ErrInvalidParam "no ids provided")
  else
    let* _ := inTransaction (λ tx s, let '(err, s') := Repo_BatchDelete tx ids s in
                                     (err, tt, s')) in
    ret (Success PNil).

End Controller.

Arguments CrudController : clear implicits.
Arguments mkController {T Store} _ _.

(** ** Observing what the controller hands to its repository *)

(** A state-changing call on the repository, with its argument. *)
Inductive RepoCall (T : Type) :=
  | CallUpdate (entity : T)
  | CallDeleteById (id : Any)
  | CallBatchCreate (entities : list T)
  | CallBatchUpdate (entities : list T)
  | CallBatchDelete (ids : list Any).
Arguments CallUpdate {T} _.
Arguments CallDeleteById {T} _.
Arguments CallBatchCreate {T} _.
Arguments CallBatchUpdate {T} _.
Arguments CallBatchDelete {T} _.

(** The repository [R] with a log of the calls it received next to its
    storage state; it answers as [R] does. *)
Definition traced {T Store : Type} (R : IRepository T Store)
    : IRepository T (Store * list (RepoCall T)) :=
  {| Repo_FindById := λ id s, Repo_FindById R id s.1;
     Repo_Update := λ entity s,
       let '(err, entity', s') := Repo_Update R entity s.1 in
       (err, entity', (s', s.2 ++ [CallUpdate entity]));
     Repo_DeleteById := λ id s,
       let '(err, s') := Repo_DeleteById R id s.1 in
       (err, (s', s.2 ++ [CallDeleteById id]));
     Repo_BatchCreate := λ entities s,
       let '(err, entities', s') := Repo_BatchCreate R entities s.1 in
       (err, entities', (s', s.2 ++ [CallBatchCreate entities]));
     Repo_BatchUpdate := λ entities s,
       let '(err, entities', s') := Repo_BatchUpdate R entities s.1 in
       (err, entities', (s', s.2 ++ [CallBatchUpdate entities]));
     Repo_BatchDelete := λ ids s,
       let '(err, s') := Repo_BatchDelete R ids s.1 in
       (err, (s', s.2 ++ [CallBatchDelete ids])) |}.

(** ** A sample entity and an in-memory repository

    Used to run the handlers on concrete requests. The repository stores the
    entities in a list; its batch operations work item by item and stop at the
    first item they cannot process, leaving the earlier ones done. *)

#[export] Instance Any_eq_dec : EqDecision Any.
Proof. solve_decision. Defined.

Record User := mkUser {
  User_ID : Any;
  User_Name : string
}.

#[export] Instance User_entity : ICrudEntity User :=
  {| GetID := User_ID;
     SetID := λ u id, mkUser id (User_Name u);
     GetID_SetID := λ u id, eq_refl |}.

Definition userValidate (u : User) : option Error :=
  if decide (User_Name u = EmptyString)
  then Some (ValidationError "Name is required")
  else None.

Definition hasId (id : Any) (u : User) : bool := bool_decide (User_ID u = id).

Definition memUpdate (u : User) (s : list User) : option Error * User * list User :=
  if existsb (hasId (User_ID u)) s
  then (None, u, (λ old, if hasId (User_ID u) old then u else old) <$> s)
  else (Some (RepositoryError "record not found"), u, s).

Fixpoint memBatchCreate (us : list User) (s : list User) : option Error * list User :=
  match us with
  | [] => (None, s)
  | u :: rest =>
      if existsb (hasId (User_ID u)) s
      then (Some (RepositoryError "duplicate key"), s)
      else memBatchCreate rest (s ++ [u])
  end.

Fixpoint memBatchUpdate (us : list User) (s : list User) : option Error * list User :=
  match us with
  | [] => (None, s)
  | u :: rest =>
      match memUpdate u s with
      | (Some err, _, s') => (Some err, s')
      | (None, _, s') => memBatchUpdate rest s'
      end
  end.

Definition memDelete (ids : list Any) (s : list User) : list User :=
  filter (λ u, User_ID u ∉ ids) s.

Definition memRepository : IRepository User (list User) :=
  {| Repo_FindById := λ id s, inr (find (hasId id) s);
     Repo_Update := memUpdate;
     Repo_DeleteById := λ id s, (None, memDelete [id] s);
     Repo_BatchCreate := λ us s, let '(err, s') := memBatchCreate us s in (err, us, s');
     Repo_BatchUpdate := λ us s, let '(err, s') := memBatchUpdate us s in (err, us, s');
     Repo_BatchDelete := λ ids s, (None, memDelete ids s) |}.

(** A request with path parameter [id] and the given binding results. *)
Definition request (id : string) (entity : Error + User)
    (entities : Error + list User) (ids : Error + list Any) : Context User :=
  mkContext (λ key, if decide (key = "id"%string) then id else EmptyString)
            entity entities ids.

Definition noBody {A} : Error + A := inl (BindError "EOF").

(** A request that only carries the path parameter. *)
Definition pathRequest (id : string) : Context User :=
  request id noBody noBody noBody.

(** A controller over the in-memory repository, for a given [TID]. *)
Definition userController (tid : IDType) : CrudController User (list User) :=
  mkController tid memRepository.

Definition ann : User := mkUser (AnyUint64 1) "ann".
Definition bob : User := mkUser (AnyUint64 2) "bob".
Definition nameless : User := mkUser (AnyUint64 3) EmptyString.
Definition dan : User := mkUser (AnyUint64 4) "dan".

(** The store the sample requests run against: [ann] is stored. *)
Definition sampleStore : list User := [ann].

(** ** Create *)

Section CreateHandler.
Context {T Store : Type}.
Variable validator_Validate : T → option Error.

(** [Repository.Create(ctx, &entity)]: the error, the entity as the call
    leaves it behind the pointer, and the new storage state. *)
Variable Repository_Create : T → Store → option Error * T * Store.

Definition Create (ctx : Context T) : Handler Store (Reply T) :=
  let* entity := try (BindEntity ctx) in
  let* _ := check (validator_Validate entity) in
  let* entity :=
    (λ s, let '(err, entity, s') := Repository_Create entity s in
          match err with
          | Some e => (Fail e, s')
          | None => (Ok entity, s')
          end) in
  ret (Success (PEntity entity)).

End CreateHandler.

(** [create] with a log, next to the storage state, of the entities it was
    called with; it answers as [create] does. *)
Definition loggedCreate {T Store : Type}
    (create : T → Store → option Error * T * Store)
    : T → Store * list T → option Error * T * (Store * list T) :=
  λ entity s,
    let '(err, entity', s') := create entity s.1 in
    (err, entity', (s', s.2 ++ [entity])).

(** An in-memory [Create]: the next free identifier is given to the entity,
    which is then stored. *)
Definition memCreate (u : User) (s : list User) : option Error * User * list User :=
  let u' := mkUser (AnyUint64 (Z.of_nat (length s) + 1)) (User_Name u) in
  (None, u', s ++ [u']).

End crud.

(** ** Sample types, routes and registrations

    Concrete inputs on which the generator is run below. *)

Module samples.
Import swagger.

Definition uint64_t : GoType := TBasic KUint64 "uint64".
Definition string_t : GoType := TBasic KString "string".
Definition int_t : GoType := TBasic KInt "int".
(** [time.Time]; used below as a field type only, where the generator does
    not look at its fields, which are left out. *)
Definition time_t : GoType := TStruct "Time" "time.Time" [].

(** [type User struct { ID uint64 `json:"id"`;
                        Name string `json:"name" binding:"required"` }]. *)
Definition User : GoType :=
  TStruct "User" "models.User"
    [ mkField "ID" uint64_t [("json", "id")] false;
      mkField "Name" string_t [("json", "name"); ("binding", "required")] false ].

(** [type Base struct { ID uint64 `json:"id" binding:"required"`;
                        CreatedAt time.Time `json:"created_at"` }]. *)
Definition Base : GoType :=
  TStruct "Base" "models.Base"
    [ mkField "ID" uint64_t [("json", "id"); ("binding", "required")] false;
      mkField "CreatedAt" time_t [("json", "created_at")] false ].

(** [type Account struct { Base;
       Password string `json:"-" binding:"required"`;
       Email string `json:"contact" binding:"required"`;
       Phone string `json:"contact" binding:"required"` }]. *)
Definition Account : GoType :=
  TStruct "Account" "models.Account"
    [ mkField "Base" Base [] true;
      mkField "Password" string_t [("json", "-"); ("binding", "required")] false;
      mkField "Email" string_t [("json", "contact"); ("binding", "required")] false;
      mkField "Phone" string_t [("json", "contact"); ("binding", "required")] false ].

(** [type Article struct { Base; Title string `json:"title"`;
                           Slug string `json:"id"` }]. *)
Definition baseField : StructField := mkField "Base" Base [] true.
Definition titleField : StructField := mkField "Title" string_t [("json", "title")] false.
Definition slugField : StructField := mkField "Slug" string_t [("json", "id")] false.
Definition Article : GoType :=
  TStruct "Article" "models.Article" [baseField; titleField; slugField].

(** Two request types of the same bare name [Req], from two packages. *)
Definition ReqA : GoType :=
  TStruct "Req" "create.Req" [ mkField "Name" string_t [("json", "name")] false ].
Definition ReqB : GoType :=
  TStruct "Req" "update.Req" [ mkField "Age" int_t [("json", "age")] false ].

Definition route (method path : string) (request response : option GoType) : APIRoute :=
  mkRoute path method [] EmptyString EmptyString request response.

(** A create and a replace route on the same path, with the two [Req]. *)
Definition reqRoutes : list APIRoute :=
  [ route "POST" "" (Some ReqA) None; route "PUT" "" (Some ReqB) None ].

(** The standard routes of a controller. *)
Definition crudRoutes : list APIRoute :=
  [ route "GET" "" None None; route "POST" "" None None;
    route "GET" "/:id" None None; route "PUT" "/:id" None None;
    route "DELETE" "/:id" None None ].

(** [User] as reshaped for a second version of the API. *)
Definition UserV2 : GoType :=
  TStruct "User" "v2.User"
    [ mkField "ID" uint64_t [("json", "id")] false;
      mkField "Name" string_t [("json", "name"); ("binding", "required")] false;
      mkField "Email" string_t [("json", "email")] false ].

Definition Order : GoType :=
  TStruct "Order" "models.Order"
    [ mkField "ID" uint64_t [("json", "id")] false;
      mkField "Total" int_t [("json", "total")] false ].

(** [users] and [orders] registered under [v1], [users] again under [v2]. *)
Definition registry : Generator :=
  let order := canonical_order in
  let g := RegisterEntityWithVersion NewGenerator User "/api/v1" "users" crudRoutes "v1" in
  let g := RegisterEntityWithVersion g Order "/api/v1" "orders" crudRoutes "v1" in
  RegisterEntityWithVersion g UserV2 "/api/v2" "users" crudRoutes "v2".

(** The two documents registered under [v1], in an order of visit. *)
Definition v1_entries : list (string * Swagger) :=
  let order := canonical_order in
  [ ("orders_v1"%string, assembleDocument Order "/api/v1" "orders" crudRoutes "v1");
    ("users_v1"%string, assembleDocument User "/api/v1" "users" crudRoutes "v1") ].

(** The document assembled for [users] under [v1]. *)
Definition usersV1Doc : Swagger :=
  let order := canonical_order in
  assembleDocument User "/api/v1" "users" crudRoutes "v1".

(** The fields of [Account]. *)
Definition passwordField : StructField :=
  mkField "Password" string_t [("json", "-"); ("binding", "required")] false.
Definition emailField : StructField :=
  mkField "Email" string_t [("json", "contact"); ("binding", "required")] false.
Definition phoneField : StructField :=
  mkField "Phone" string_t [("json", "contact"); ("binding", "required")] false.

(** [type Label struct { Label string }] and
    [type Sticker struct { Label }]: the embedded struct has a field of its
    own name. *)
Definition Label : GoType :=
  TStruct "Label" "models.Label" [ mkField "Label" string_t [] false ].
Definition labelField : StructField := mkField "Label" Label [] true.
Definition Sticker : GoType := TStruct "Sticker" "models.Sticker" [labelField].

(** [type Note struct { Base; Origin string `json:"Base"` }]: a sibling is
    published under the name of the embedded field. *)
Definition originField : StructField := mkField "Origin" string_t [("json", "Base")] false.
Definition Note : GoType := TStruct "Note" "models.Note" [baseField; originField].

(** [type Post struct { *Base; Title string `json:"title"`;
                        Slug string `json:"id"` }]: [Article] with the
    embedded field declared as a pointer. *)
Definition basePtrField : StructField := mkField "Base" (TPtr Base) [] true.
Definition Post : GoType :=
  TStruct "Post" "models.Post" [basePtrField; titleField; slugField].

(** [users] registered under the version [v1], and [members], which serves
    the reshaped [User], under the version [x_v1]. *)
Definition underscored : Generator :=
  let order := canonical_order in
  let g := RegisterEntityWithVersion NewGenerator User "/api/v1" "users" crudRoutes "v1" in
  RegisterEntityWithVersion g UserV2 "/api/x_v1" "members" crudRoutes "x_v1".

(** [accounts] and [members], which both serve [User], registered under
    [v1], and [users], which serves the reshaped [User], under [v2]. *)
Definition sandwich : Generator :=
  let order := canonical_order in
  let g := RegisterEntityWithVersion NewGenerator User "/api/v1" "accounts" crudRoutes "v1" in
  let g := RegisterEntityWithVersion g User "/api/v1" "members" crudRoutes "v1" in
  RegisterEntityWithVersion g UserV2 "/api/v2" "users" crudRoutes "v2".

End samples.

(* ===================================================================== *)
(** * Part II: properties *)
(* ===================================================================== *)

(** ** Loops over Go maps *)

Section RangeLoops.
Context {order : RangeOrder}.

Lemma range_keys_NoDup {A} (m : gmap string A) : NoDup (range m).*1.
Proof. rewrite (range_perm A m). apply NoDup_fst_map_to_list. Qed.

Lemma list_to_map_range {A} (m : gmap string A) :
  list_to_map (range m) = m.
Proof.
  rewrite (list_to_map_proper (range m) (map_to_list m)).
  - apply list_to_map_to_list.
  - apply range_keys_NoDup.
  - apply range_perm.
Qed.

Lemma elem_of_range {A} (m : gmap string A) k v :
  (k, v) ∈ range m ↔ m !! k = Some v.
Proof. rewrite (range_perm A m). apply elem_of_map_to_list. Qed.

(** Assigning every visited entry: the later of two writes to a key stays. *)
Lemma foldl_assign_lookup {A} (l : list (string * A)) (dst : gmap string A) k :
  foldl (λ acc kv, <[kv.1 := kv.2]> acc) dst l !! k =
  match list_to_map (M := gmap string A) (reverse l) !! k with
  | Some v => Some v
  | None => dst !! k
  end.
Proof.
  revert dst. induction l as [|[k' v'] l IH]; intros dst; simpl.
  - by rewrite lookup_empty.
  - rewrite IH, reverse_cons, list_to_map_app, lookup_union. simpl.
    destruct (list_to_map (reverse l) !! k) as [v|] eqn:E; simpl.
    + by rewrite union_Some_l.
    + rewrite (left_id None _).
      destruct (decide (k' = k)) as [->|Hne].
      * by rewrite !lookup_insert_eq.
      * by rewrite !lookup_insert_ne, lookup_empty.
Qed.

(** [for k, v := range src { dst[k] = v }] is the union in which [src]
    wins, whatever the order of the visit. *)
Lemma range_assign_union {A} (src dst : gmap string A) :
  foldl (λ acc kv, <[kv.1 := kv.2]> acc) dst (range src) = src ∪ dst.
Proof.
  apply map_eq; intros k. rewrite foldl_assign_lookup, lookup_union.
  rewrite (list_to_map_proper (reverse (range src)) (range src)).
  - rewrite list_to_map_range.
    destruct (src !! k); simpl; [by rewrite union_Some_l|by rewrite (left_id None _)].
  - rewrite fmap_reverse, reverse_Permutation. apply range_keys_NoDup.
  - apply reverse_Permutation.
Qed.

Lemma foldl_keep_lookup {A} (l : list (string * A)) (dst : gmap string A) k :
  foldl (λ acc kv, match acc !! kv.1 with
                   | Some _ => acc
                   | None => <[kv.1 := kv.2]> acc
                   end) dst l !! k =
  match dst !! k with
  | Some v => Some v
  | None => list_to_map (M := gmap string A) l !! k
  end.
Proof.
  revert dst. induction l as [|[k' v'] l IH]; intros dst; simpl.
  - rewrite lookup_empty. by destruct (dst !! k).
  - rewrite IH. destruct (dst !! k') as [w|] eqn:E.
    + destruct (dst !! k) eqn:E'; [done|].
      rewrite lookup_insert_ne; [done|congruence].
    + destruct (decide (k' = k)) as [->|Hne].
      * by rewrite E, !lookup_insert_eq.
      * by rewrite !lookup_insert_ne.
Qed.

(** [for k, v := range src { if _, exists := dst[k]; !exists { dst[k] = v } }]
    is the union in which [dst] wins. *)
Lemma range_keep_union {A} (src dst : gmap string A) :
  foldl (λ acc kv, match acc !! kv.1 with
                   | Some _ => acc
                   | None => <[kv.1 := kv.2]> acc
                   end) dst (range src) = dst ∪ src.
Proof.
  apply map_eq; intros k.
  rewrite foldl_keep_lookup, lookup_union, list_to_map_range.
  destruct (dst !! k); simpl; [by rewrite union_Some_l|by rewrite (left_id None _)].
Qed.

End RangeLoops.

(** ** generateSchema: required names and properties *)

Section SchemaProperties.
Context {order : RangeOrder}.
Import swagger.

Lemma spliceProperties_union (src dst : gmap string Schema) :
  spliceProperties src dst = src ∪ dst.
Proof. apply range_assign_union. Qed.

Lemma generateSchema_struct tname tstring fields :
  generateSchema (TStruct tname tstring fields) =
  foldl (fieldStep generateSchema) objectSchema fields.
Proof. reflexivity. Qed.

(** Each iteration appends at most the published name of the field. *)
Lemma fieldStep_Required schema field :
  Required (fieldStep generateSchema schema field) =
  Required schema ++ (if entersRequired field then [fieldName field] else []).
Proof.
  unfold fieldStep, entersRequired, markedRequired.
  destruct (Anonymous field); simpl; [by rewrite app_nil_r|].
  case_decide as Hskip.
  - rewrite bool_decide_eq_false_2 by (intros ?; contradiction).
    simpl. by rewrite app_nil_r.
  - rewrite (bool_decide_eq_true_2 _ Hskip). simpl.
    case_decide as Hreq.
    + by rewrite (bool_decide_eq_true_2 _ Hreq).
    + rewrite (bool_decide_eq_false_2 _ Hreq). simpl. by rewrite app_nil_r.
Qed.

Lemma foldl_fieldStep_Required fields schema :
  Required (foldl (fieldStep generateSchema) schema fields) =
  Required schema ++ (fieldName <$> filter (λ f, entersRequired f) fields).
Proof.
  revert schema. induction fields as [|field fields IH]; intros schema; simpl.
  - by rewrite app_nil_r.
  - rewrite IH, fieldStep_Required.
    destruct (entersRequired field) eqn:E.
    + rewrite filter_cons_True by (simpl; by rewrite E). by rewrite <- app_assoc.
    + rewrite filter_cons_False by (simpl; rewrite E; intros []). by rewrite app_nil_r.
Qed.

Lemma occurrences_not_elem_of (name : string) (names : list string) :
  name ∉ names → occurrences name names = 0%nat.
Proof.
  unfold occurrences. induction names as [|n names IH]; intros Hin; [done|].
  apply not_elem_of_cons in Hin as [Hne Hin].
  rewrite filter_cons_False by congruence. auto.
Qed.

Lemma occurrences_NoDup (name : string) (names : list string) :
  NoDup names → name ∈ names → occurrences name names = 1%nat.
Proof.
  induction 1 as [|n names Hn Hnd IH]; intros Hin.
  - by apply elem_of_nil in Hin.
  - unfold occurrences in *. apply elem_of_cons in Hin as [->|Hin].
    + rewrite filter_cons_True by done. simpl. f_equal.
      by apply occurrences_not_elem_of.
    + rewrite filter_cons_False by (intros ->; contradiction). auto.
Qed.

(** C5, as amended. For every struct type, the [required] list of the
    generated schema holds the published names of exactly the fields that
    are declared directly in the struct (not embedded), are not skipped by
    [json:"-"] and carry [binding:"required"], in declaration order and once
    per such field. Hence each such name is in the list; it occurs exactly
    once when no two such fields are published under one name; and
    reordering the declarations only reorders the list. *)
Theorem required_lists_direct_marked_fields tname tstring fields :
  let schema := generateSchema (TStruct tname tstring fields) in
  Required schema = fieldName <$> filter (λ f, entersRequired f) fields ∧
  (∀ field, field ∈ fields → entersRequired field →
     fieldName field ∈ Required schema) ∧
  (NoDup (fieldName <$> filter (λ f, entersRequired f) fields) →
   ∀ field, field ∈ fields → entersRequired field →
     occurrences (fieldName field) (Required schema) = 1%nat) ∧
  (∀ fields', fields' ≡ₚ fields →
     Required (generateSchema (TStruct tname tstring fields')) ≡ₚ Required schema).
Proof.
  intros schema.
  assert (Heq : ∀ fs, Required (generateSchema (TStruct tname tstring fs)) =
                      fieldName <$> filter (λ f, entersRequired f) fs).
  { intros fs. rewrite generateSchema_struct, foldl_fieldStep_Required. done. }
  assert (Hin : ∀ field, field ∈ fields → entersRequired field →
                fieldName field ∈ Required schema).
  { intros field Hf He. subst schema. rewrite Heq.
    apply list_elem_of_fmap. exists field. split; [done|].
    by apply list_elem_of_filter. }
  split; [apply Heq|]. split; [exact Hin|]. split.
  - intros Hnd field Hf He. apply occurrences_NoDup; [|by apply Hin].
    subst schema. by rewrite Heq.
  - intros fields' Hperm. subst schema. rewrite !Heq. by rewrite Hperm.
Qed.

(** *** Properties *)

Lemma fieldStep_Properties schema field :
  Properties (fieldStep generateSchema schema field) =
  fieldWrites field ∪ Properties schema.
Proof.
  unfold fieldStep, fieldWrites.
  destruct (Anonymous field); simpl; [apply spliceProperties_union|].
  case_decide as Hskip.
  - by rewrite (left_id ∅ _).
  - rewrite <- insert_union_singleton_l. by case_decide.
Qed.

Lemma foldl_fieldStep_kept post schema k v :
  Properties schema !! k = Some v →
  (∀ g, g ∈ post → fieldWrites g !! k = None) →
  Properties (foldl (fieldStep generateSchema) schema post) !! k = Some v.
Proof.
  revert schema. induction post as [|g post IH]; intros schema Hk Hpost; [done|].
  simpl. apply IH.
  - rewrite fieldStep_Properties, lookup_union_r; [done|].
    apply Hpost. by left.
  - intros g' Hg'. apply Hpost. by right.
Qed.

Lemma foldl_fieldStep_last_writer pre field post schema k v :
  fieldWrites field !! k = Some v →
  (∀ g, g ∈ post → fieldWrites g !! k = None) →
  Properties (foldl (fieldStep generateSchema) schema (pre ++ field :: post)) !! k
  = Some v.
Proof.
  intros Hw Hpost. rewrite foldl_app. simpl.
  apply foldl_fieldStep_kept; [|done].
  rewrite fieldStep_Properties. by apply lookup_union_Some_l.
Qed.

Lemma foldl_fieldStep_source fields schema k :
  is_Some (Properties (foldl (fieldStep generateSchema) schema fields) !! k) →
  is_Some (Properties schema !! k) ∨
  ∃ g, g ∈ fields ∧ is_Some (fieldWrites g !! k).
Proof.
  revert schema. induction fields as [|f fields IH]; intros schema Hk; [by left|].
  simpl in Hk. apply IH in Hk as [Hk|(g & Hg & Hk)].
  - rewrite fieldStep_Properties in Hk.
    destruct Hk as [v Hk]. apply lookup_union_Some_raw in Hk as [Hk|[_ Hk]].
    + right. exists f. split; [by left|by eexists].
    + left. by eexists.
  - right. exists g. split; [by right|done].
Qed.

Lemma fieldWrites_source field k :
  is_Some (fieldWrites field !! k) →
  (Anonymous field = true ∧
   is_Some (Properties (generateSchema (FType field)) !! k)) ∨
  (Anonymous field = false ∧ Tag_Get (Tag field) "json" ≠ "-"%string ∧
   k = fieldName field).
Proof.
  unfold fieldWrites. destruct (Anonymous field); [by left|].
  case_decide as Hskip.
  - rewrite lookup_empty. by intros [? ?].
  - intros [v Hv]. apply lookup_singleton_Some in Hv as [<- _]. by right.
Qed.

(** An embedded field of type [T] or [*T], [T] a struct, contributes the
    properties of the schema of [T]; any other embedded field contributes
    none. *)
Lemma generateSchema_embedded t :
  Properties (generateSchema t) =
  match embeddedStruct t with
  | Some T => Properties (generateSchema T)
  | None => ∅
  end.
Proof. destruct t as [k n|e|n e|n s fs]; try done. by destruct e. Qed.

Lemma fieldWrites_embedded field T :
  Anonymous field = true → embeddedStruct (FType field) = Some T →
  fieldWrites field = Properties (generateSchema T).
Proof.
  intros Hanon HT. unfold fieldWrites.
  by rewrite Hanon, generateSchema_embedded, HT.
Qed.

Lemma fieldWrites_cases field k :
  is_Some (fieldWrites field !! k) ↔
  (Anonymous field = true ∧
   ∃ T, embeddedStruct (FType field) = Some T ∧
        is_Some (Properties (generateSchema T) !! k)) ∨
  (Anonymous field = false ∧ Tag_Get (Tag field) "json" ≠ "-"%string ∧
   k = fieldName field).
Proof.
  split.
  - intros Hk. apply fieldWrites_source in Hk as [[Hanon Hk]|Hk]; [left|by right].
    split; [done|]. rewrite generateSchema_embedded in Hk.
    destruct (embeddedStruct (FType field)) as [T|]; [by exists T|].
    rewrite lookup_empty in Hk. by destruct Hk.
  - intros [(Hanon & T & HT & Hk)|(Hanon & Hskip & ->)].
    + by rewrite (fieldWrites_embedded field T).
    + unfold fieldWrites. rewrite Hanon, decide_False by done.
      rewrite lookup_singleton_eq. by eexists.
Qed.

(** The keys of the parent are the keys the fields write. *)
Lemma foldl_fieldStep_keys fields schema k :
  is_Some (Properties (foldl (fieldStep generateSchema) schema fields) !! k) ↔
  is_Some (Properties schema !! k) ∨
  ∃ g, g ∈ fields ∧ is_Some (fieldWrites g !! k).
Proof.
  split; [apply foldl_fieldStep_source|].
  revert schema. induction fields as [|f fields IH]; intros schema.
  - intros [Hk|(g & Hg & _)]; [done|by apply elem_of_nil in Hg].
  - intros Hk. simpl. apply IH.
    destruct Hk as [Hk|(g & Hg & Hk)].
    + left. rewrite fieldStep_Properties. destruct Hk as [v Hk].
      destruct (fieldWrites f !! k) as [w|] eqn:Hw.
      * exists w. by apply lookup_union_Some_l.
      * exists v. by rewrite lookup_union_r.
    + apply elem_of_cons in Hg as [->|Hg].
      * left. rewrite fieldStep_Properties. destruct Hk as [v Hk].
        exists v. by apply lookup_union_Some_l.
      * right. by exists g.
Qed.

(** C6, as amended. For every struct type: (1) an embedded field declared
    as [T] or [*T], [T] a struct, brings every property key of the schema of
    [T] into the parent's [properties]; (2) under such a key the parent holds
    the very schema [T] gives it, unless a field declared later writes that
    key; (3) an embedded field of any other type brings nothing; (4) the keys
    of the parent are exactly the property keys brought by its embedded
    fields and the published names of its named fields that are not
    skipped: no step writes an embedded field under its own name;
    (5) hence the name of an embedded field is a key exactly when some field
    writes that key, that is when an embedded struct has a property of that
    name or a named sibling is published under it; (6) when several fields
    write one key, the value of the last one in declaration order stays, be
    it an embedded field's property or a sibling. *)
Theorem embedded_fields_are_spliced tname tstring fields :
  let parent := generateSchema (TStruct tname tstring fields) in
  (∀ field T k,
     field ∈ fields → Anonymous field = true →
     embeddedStruct (FType field) = Some T →
     is_Some (Properties (generateSchema T) !! k) →
     is_Some (Properties parent !! k)) ∧
  (∀ pre field post T k v,
     fields = pre ++ field :: post → Anonymous field = true →
     embeddedStruct (FType field) = Some T →
     Properties (generateSchema T) !! k = Some v →
     (∀ g, g ∈ post → fieldWrites g !! k = None) →
     Properties parent !! k = Some v) ∧
  (∀ field, Anonymous field = true → embeddedStruct (FType field) = None →
     fieldWrites field = ∅) ∧
  (∀ k, is_Some (Properties parent !! k) ↔
     ∃ g, g ∈ fields ∧
       ((Anonymous g = true ∧
         ∃ T, embeddedStruct (FType g) = Some T ∧
              is_Some (Properties (generateSchema T) !! k)) ∨
        (Anonymous g = false ∧ Tag_Get (Tag g) "json" ≠ "-"%string ∧
         k = fieldName g))) ∧
  (∀ field, field ∈ fields → Anonymous field = true →
     (Properties parent !! Name field = None ↔
      ∀ g, g ∈ fields → fieldWrites g !! Name field = None)) ∧
  (∀ pre field post k v,
     fields = pre ++ field :: post →
     fieldWrites field !! k = Some v →
     (∀ g, g ∈ post → fieldWrites g !! k = None) →
     Properties parent !! k = Some v).
Proof.
  intros parent. subst parent. rewrite generateSchema_struct.
  assert (Hkeys : ∀ k,
    is_Some (Properties (foldl (fieldStep generateSchema) objectSchema fields) !! k) ↔
    ∃ g, g ∈ fields ∧ is_Some (fieldWrites g !! k)).
  { intros k. rewrite foldl_fieldStep_keys. simpl. rewrite lookup_empty.
    split; [intros [[? ?]|?]; done|by right]. }
  split; [|split; [|split; [|split; [|split]]]].
  - intros field T k Hf Hanon HT Hk. apply Hkeys. exists field. split; [done|].
    by rewrite (fieldWrites_embedded field T).
  - intros pre field post T k v -> Hanon HT Hv Hpost.
    apply foldl_fieldStep_last_writer; [|done].
    by rewrite (fieldWrites_embedded field T).
  - intros field Hanon HT. unfold fieldWrites.
    by rewrite Hanon, generateSchema_embedded, HT.
  - intros k. rewrite Hkeys. by setoid_rewrite fieldWrites_cases.
  - intros field Hf Hanon. rewrite eq_None_not_Some, Hkeys. split.
    + intros Hnone g Hg. apply eq_None_not_Some. intros Hk.
      apply Hnone. by exists g.
    + intros Hnone (g & Hg & Hk). rewrite (Hnone g Hg) in Hk. by destruct Hk.
  - intros pre field post k v -> Hw Hpost.
    by apply foldl_fieldStep_last_writer.
Qed.

End SchemaProperties.

(** ** Document assembly: the definitions table *)

Section AssemblyProperties.
Context {order : RangeOrder}.
Import swagger.

Lemma collectDefinitions_samples entityName visited definitions :
  collectDefinitions entityName visited definitions =
  foldl (λ defs sample, collectSample entityName sample defs) definitions
        (samplesVisited visited).
Proof.
  unfold collectDefinitions, samplesVisited.
  revert definitions. induction visited as [|[path routes] visited IH];
    intros definitions; [done|].
  rewrite bind_cons, foldl_app. simpl. rewrite IH. f_equal.
  clear IH. revert definitions.
  induction routes as [|route routes IH]; intros definitions; [done|].
  rewrite bind_cons, foldl_app. simpl. by rewrite IH.
Qed.

Lemma collectSample_named entityName ty name definitions :
  sampleName entityName (Some ty) = Some name →
  collectSample entityName (Some ty) definitions !! name =
  Some (generateSchema (derefPtr ty)).
Proof.
  unfold sampleName, collectSample. case_decide; [|done].
  intros [= <-]. apply lookup_insert_eq.
Qed.

Lemma collectSample_other entityName sample name definitions :
  sampleName entityName sample ≠ Some name →
  collectSample entityName sample definitions !! name = definitions !! name.
Proof.
  unfold sampleName, collectSample. destruct sample as [ty|]; [|done].
  case_decide; [|done]. intros Hne. apply lookup_insert_ne. congruence.
Qed.

Lemma collect_samples_kept entityName post name schema definitions :
  definitions !! name = Some schema →
  (∀ s, s ∈ post → sampleName entityName s ≠ Some name) →
  foldl (λ defs sample, collectSample entityName sample defs) definitions post
    !! name = Some schema.
Proof.
  revert definitions. induction post as [|s post IH]; intros definitions Hd Hpost;
    [done|].
  simpl. apply IH.
  - rewrite collectSample_other; [done|]. apply Hpost. by left.
  - intros s' Hs'. apply Hpost. by right.
Qed.

Lemma collect_samples_source entityName samples name definitions :
  is_Some (foldl (λ defs sample, collectSample entityName sample defs)
                 definitions samples !! name) →
  is_Some (definitions !! name) ∨
  ∃ s, s ∈ samples ∧ sampleName entityName s = Some name.
Proof.
  revert definitions. induction samples as [|s samples IH]; intros definitions Hk;
    [by left|].
  simpl in Hk. apply IH in Hk as [Hk|(s' & Hs' & Hk)].
  - destruct (decide (sampleName entityName s = Some name)) as [Heq|Hne].
    + right. exists s. split; [by left|done].
    + left. by rewrite collectSample_other in Hk.
  - right. exists s'. split; [by right|done].
Qed.

Lemma sampleName_not_entity entityName sample :
  sampleName entityName sample ≠ Some entityName.
Proof.
  unfold sampleName. destruct sample as [ty|]; [|done].
  case_decide as H; [|done]. intros [= Heq]. by destruct H.
Qed.

(** C7, as amended. The definitions of an assembled document hold the
    entity's own schema under the entity's type name, which no sample type
    replaces; a sample type enters under its bare type name by plain
    assignment, so among the samples of one name the one visited last
    provides the schema (per route the response after the request, routes of
    a path in their order); and every name defined is the entity's or that
    of a visited sample. *)
Theorem definitions_last_sample_wins entityType basePath routePath allRoutes version :
  let doc := assembleDocument entityType basePath routePath allRoutes version in
  let entityName := TypeName (derefPtr entityType) in
  let samples := samplesVisited (range (groupRoutes routePath allRoutes)) in
  Definitions doc !! entityName = Some (generateSchema (derefPtr entityType)) ∧
  (∀ pre ty post name,
     samples = pre ++ Some ty :: post →
     sampleName entityName (Some ty) = Some name →
     (∀ s, s ∈ post → sampleName entityName s ≠ Some name) →
     Definitions doc !! name = Some (generateSchema (derefPtr ty))) ∧
  (∀ name, is_Some (Definitions doc !! name) →
     name = entityName ∨ ∃ s, s ∈ samples ∧ sampleName entityName s = Some name).
Proof.
  intros doc entityName samples. subst doc. unfold assembleDocument. simpl.
  fold entityName. rewrite collectDefinitions_samples. fold samples.
  repeat split.
  - apply collect_samples_kept; [apply lookup_insert_eq|].
    intros s _. apply sampleName_not_entity.
  - intros pre ty post name -> Hname Hpost.
    rewrite foldl_app. simpl.
    apply collect_samples_kept; [|done]. by apply collectSample_named.
  - intros name Hk. apply collect_samples_source in Hk as [Hk|Hk]; [|by right].
    left. destruct (decide (entityName = name)) as [<-|Hne]; [done|].
    rewrite lookup_insert_ne, lookup_empty in Hk by done. by destruct Hk.
Qed.

End AssemblyProperties.

(** ** Registry keys *)

Section KeyProperties.
Import swagger.

Lemma strings_Split_nonempty s sep : strings_Split s sep ≠ [].
Proof.
  destruct s as [|c s]; simpl; [done|].
  case_decide; [done|]. by destruct (strings_Split s sep).
Qed.

(** Splitting at a separator byte splits on both sides of it. *)
Lemma strings_Split_app a b sep :
  strings_Split (a +:+ String sep b) sep
  = strings_Split a sep ++ strings_Split b sep.
Proof.
  induction a as [|c a IH]; simpl.
  - by rewrite decide_True.
  - case_decide; [by rewrite IH|].
    rewrite IH. pose proof (strings_Split_nonempty a sep).
    by destruct (strings_Split a sep).
Qed.

Lemma strings_Split_without s (sep : ascii) :
  strings_Contains s (String sep EmptyString) = false →
  strings_Split s sep = [s].
Proof.
  induction s as [|c s IH]; [done|]. simpl.
  intros H. apply orb_false_elim in H as [Hc Hs].
  case_decide as Heq.
  - subst c. simpl in Hc. destruct (ascii_dec sep sep); [by destruct s|done].
  - by rewrite (IH Hs).
Qed.

(** A registry key [routePath_version] is filed under the last piece of
    the version, whatever the route path; under the version itself when
    that has no underscore. *)
Lemma keyVersion_registered routePath version :
  keyVersion (routePath +:+ "_" +:+ version)
  = last (strings_Split version "_"%char).
Proof.
  unfold keyVersion.
  change (routePath +:+ "_" +:+ version)
    with (routePath +:+ String "_"%char version).
  rewrite strings_Split_app.
  pose proof (strings_Split_nonempty routePath "_"%char).
  pose proof (strings_Split_nonempty version "_"%char).
  rewrite decide_False.
  - destruct (strings_Split version "_"%char) as [|p ps]; [done|].
    by rewrite last_app_cons.
  - rewrite length_app.
    destruct (strings_Split routePath "_"%char), (strings_Split version "_"%char);
      simpl; try done; lia.
Qed.

Lemma keyVersion_plain routePath version :
  strings_Contains version "_" = false →
  keyVersion (routePath +:+ "_" +:+ version) = Some version.
Proof.
  intros H. rewrite keyVersion_registered.
  by rewrite (strings_Split_without version "_"%char H).
Qed.

(** No piece of a split contains the separator. *)
Lemma strings_Split_pieces s (sep : ascii) piece :
  piece ∈ strings_Split s sep →
  strings_Contains piece (String sep EmptyString) = false.
Proof.
  revert piece. induction s as [|c s IH]; intros piece Hin.
  - apply list_elem_of_singleton in Hin as ->. done.
  - simpl in Hin. case_decide as Heq.
    + apply elem_of_cons in Hin as [->|Hin]; [done|by apply IH].
    + pose proof (strings_Split_nonempty s sep) as Hne.
      destruct (strings_Split s sep) as [|p ps] eqn:Hsplit; [done|].
      apply elem_of_cons in Hin as [->|Hin].
      * simpl. destruct (ascii_dec sep c) as [->|_]; [done|].
        simpl. apply IH. by left.
      * apply IH. by right.
Qed.

(** The version a key is filed under never has an underscore. *)
Lemma keyVersion_underscore_free key version :
  keyVersion key = Some version → strings_Contains version "_" = false.
Proof.
  unfold keyVersion. case_decide; [done|]. intros Hlast.
  apply (strings_Split_pieces key "_"%char).
  apply last_Some in Hlast as [pre ->]. apply elem_of_app. right. by left.
Qed.

End KeyProperties.

(** ** Merged views *)

Section MergeProperties.
Context {order : RangeOrder}.
Import swagger.

Lemma mergeDoc_Paths doc swagger :
  Paths (mergeDoc doc swagger) = Paths swagger ∪ Paths doc.
Proof. unfold mergeDoc, mergePaths. simpl. apply range_assign_union. Qed.

Lemma mergeDoc_Definitions doc swagger :
  Definitions (mergeDoc doc swagger) = Definitions doc ∪ Definitions swagger.
Proof. unfold mergeDoc, mergeDefinitionsKeep. simpl. apply range_keep_union. Qed.

Lemma mergeDoc_Tags doc swagger :
  Tags (mergeDoc doc swagger) = mergeTagsDedup (Tags swagger) (Tags doc).
Proof. reflexivity. Qed.

(** The tag loop appends the tags whose name the document did not have
    before the loop. *)
Lemma mergeTagsDedup_filter src dst :
  mergeTagsDedup src dst =
  dst ++ filter (λ tag, Tag_Name tag ∉ (list_to_set (Tag_Name <$> dst) : gset string)) src.
Proof.
  unfold mergeTagsDedup.
  generalize (list_to_set (Tag_Name <$> dst) : gset string) as tagMap.
  intros tagMap. revert dst.
  induction src as [|tag src IH]; intros dst; simpl.
  - by rewrite app_nil_r.
  - rewrite IH. case_decide as Hin.
    + by rewrite filter_cons_False by (intros Hn; by apply Hn).
    + rewrite filter_cons_True by done. by rewrite <- app_assoc.
Qed.

(** What [GetAllSwagger] holds for a version after visiting [visited]:
    the fold of [mergeDoc] over the documents filed under the version. *)
Lemma foldl_mergeIntoVersion_lookup visited versionDocs version :
  foldl mergeIntoVersion versionDocs visited !! version =
  match versionGroup version visited with
  | [] => versionDocs !! version
  | group =>
      Some (foldl mergeDoc
              (default (newVersionDoc version) (versionDocs !! version)) group)
  end.
Proof.
  unfold versionGroup.
  revert versionDocs. induction visited as [|[path swagger] visited IH];
    intros versionDocs; [done|].
  simpl foldl. rewrite IH. unfold mergeIntoVersion.
  destruct (keyVersion path) as [v|] eqn:Hv.
  - destruct (decide (v = version)) as [->|Hne].
    + rewrite filter_cons_True by done. rewrite lookup_insert_eq. simpl.
      by destruct (filter _ visited).
    + rewrite filter_cons_False by (simpl; congruence).
      by rewrite lookup_insert_ne.
  - by rewrite filter_cons_False by (simpl; congruence).
Qed.

(** *** The three folds over a group *)

Lemma foldl_mergeDoc_Paths_kept post doc k item :
  Paths doc !! k = Some item →
  (∀ d, d ∈ post → Paths d !! k = None) →
  Paths (foldl mergeDoc doc post) !! k = Some item.
Proof.
  revert doc. induction post as [|d post IH]; intros doc Hk Hpost; [done|].
  simpl. apply IH.
  - rewrite mergeDoc_Paths, lookup_union_r; [done|]. apply Hpost. by left.
  - intros d' Hd'. apply Hpost. by right.
Qed.

Lemma foldl_mergeDoc_Paths_last pre d post doc k item :
  Paths d !! k = Some item →
  (∀ d', d' ∈ post → Paths d' !! k = None) →
  Paths (foldl mergeDoc doc (pre ++ d :: post)) !! k = Some item.
Proof.
  intros Hk Hpost. rewrite foldl_app. simpl.
  apply foldl_mergeDoc_Paths_kept; [|done].
  rewrite mergeDoc_Paths. by apply lookup_union_Some_l.
Qed.

Lemma foldl_mergeDoc_Paths_source group doc k :
  is_Some (Paths (foldl mergeDoc doc group) !! k) →
  is_Some (Paths doc !! k) ∨ ∃ d, d ∈ group ∧ is_Some (Paths d !! k).
Proof.
  revert doc. induction group as [|d group IH]; intros doc Hk; [by left|].
  simpl in Hk. apply IH in Hk as [Hk|(d' & Hd' & Hk)].
  - rewrite mergeDoc_Paths in Hk. destruct Hk as [v Hk].
    apply lookup_union_Some_raw in Hk as [Hk|[_ Hk]].
    + right. exists d. split; [by left|by eexists].
    + left. by eexists.
  - right. exists d'. split; [by right|done].
Qed.

Lemma foldl_mergeDoc_Definitions_kept post doc name schema :
  Definitions doc !! name = Some schema →
  Definitions (foldl mergeDoc doc post) !! name = Some schema.
Proof.
  revert doc. induction post as [|d post IH]; intros doc Hk; [done|].
  simpl. apply IH. rewrite mergeDoc_Definitions. by apply lookup_union_Some_l.
Qed.

Lemma foldl_mergeDoc_Definitions_first pre d post doc name schema :
  Definitions doc !! name = None →
  (∀ d', d' ∈ pre → Definitions d' !! name = None) →
  Definitions d !! name = Some schema →
  Definitions (foldl mergeDoc doc (pre ++ d :: post)) !! name = Some schema.
Proof.
  intros Hdoc Hpre Hk. rewrite foldl_app. simpl.
  apply foldl_mergeDoc_Definitions_kept.
  rewrite mergeDoc_Definitions, lookup_union_r; [done|].
  clear Hk. revert doc Hdoc. induction pre as [|d' pre IH]; intros doc Hdoc; [done|].
  simpl. apply IH.
  - intros d'' Hd''. apply Hpre. by right.
  - rewrite mergeDoc_Definitions. apply lookup_union_None_2; [done|].
    apply Hpre. by left.
Qed.

Lemma foldl_mergeDoc_Definitions_source group doc name schema :
  Definitions (foldl mergeDoc doc group) !! name = Some schema →
  Definitions doc !! name = Some schema ∨
  ∃ d, d ∈ group ∧ Definitions d !! name = Some schema.
Proof.
  revert doc. induction group as [|d group IH]; intros doc Hk; [by left|].
  simpl in Hk. apply IH in Hk as [Hk|(d' & Hd' & Hk)].
  - rewrite mergeDoc_Definitions in Hk.
    apply lookup_union_Some_raw in Hk as [Hk|[_ Hk]].
    + by left.
    + right. exists d. split; [by left|done].
  - right. exists d'. split; [by right|done].
Qed.

Lemma filter_ext_elem_of {A} (P Q : A → Prop) `{!∀ x, Decision (P x)}
    `{!∀ x, Decision (Q x)} (l : list A) :
  (∀ x, x ∈ l → P x ↔ Q x) → filter P l = filter Q l.
Proof.
  induction l as [|x l IH]; intros Hext; [done|].
  assert (filter P l = filter Q l) as Hl.
  { apply IH. intros y Hy. apply Hext. by right. }
  destruct (decide (P x)) as [HP|HP].
  - rewrite !filter_cons_True; [by rewrite Hl| |done].
    apply Hext; [by left|done].
  - rewrite !filter_cons_False; [done| |done].
    intros HQ. apply HP, Hext; [by left|done].
Qed.

(** Deduplicating a run of tags with distinct names, then the rest. *)
Lemma dedupTags_from_app (seen : gset string) tags rest :
  NoDup (Tag_Name <$> tags) →
  dedupTags_from seen (tags ++ rest) =
  filter (λ tag, Tag_Name tag ∉ seen) tags
  ++ dedupTags_from (seen ∪ list_to_set (Tag_Name <$> tags)) rest.
Proof.
  revert seen. induction tags as [|tag tags IH]; intros seen Hnd.
  - simpl. by rewrite (right_id_L ∅ (∪)).
  - rewrite fmap_cons in Hnd. apply NoDup_cons in Hnd as [Hfresh Hnd].
    simpl. case_decide as Hin.
    + rewrite filter_cons_False by (intros Hn; by apply Hn).
      rewrite IH by done. do 2 f_equal.
      apply set_eq. intros x.
      rewrite !elem_of_union, elem_of_singleton. naive_solver.
    + rewrite filter_cons_True by done. rewrite IH by done. simpl.
      f_equal. f_equal.
      * apply filter_ext_elem_of. intros t Ht.
        assert (Tag_Name t ≠ Tag_Name tag).
        { intros Heq. apply Hfresh. rewrite <- Heq.
          apply list_elem_of_fmap. by exists t. }
        rewrite elem_of_union, elem_of_singleton. naive_solver.
      * f_equal. apply set_eq. intros x.
        rewrite !elem_of_union, elem_of_singleton. naive_solver.
Qed.

Lemma foldl_mergeDoc_Tags group doc :
  Forall (λ d, NoDup (Tag_Name <$> Tags d)) group →
  Tags (foldl mergeDoc doc group) =
  Tags doc ++ dedupTags_from (list_to_set (Tag_Name <$> Tags doc))
                             (concat (Tags <$> group)).
Proof.
  revert doc. induction group as [|d group IH]; intros doc Hnd.
  - simpl. by rewrite app_nil_r.
  - apply Forall_cons in Hnd as [Hd Hnd]. simpl.
    rewrite IH by done. rewrite mergeDoc_Tags, mergeTagsDedup_filter.
    rewrite dedupTags_from_app by done. rewrite <- app_assoc. do 3 f_equal.
    rewrite fmap_app, list_to_set_app_L.
    apply set_eq. intros x. rewrite !elem_of_union, !elem_of_list_to_set.
    rewrite !list_elem_of_fmap. split.
    + intros [Hx|(t & -> & Ht)]; [by left|].
      apply list_elem_of_filter in Ht as [_ Ht]. right. by exists t.
    + intros [Hx|(t & -> & Ht)]; [by left|].
      destruct (decide (Tag_Name t ∈ (list_to_set (Tag_Name <$> Tags doc) : gset string)))
        as [Hin|Hin].
      * left. by apply elem_of_list_to_set, list_elem_of_fmap in Hin.
      * right. exists t. split; [done|]. by apply list_elem_of_filter.
Qed.

(** The fold depends on the starting document only through its paths,
    definitions and tags. *)
Lemma foldl_mergeDoc_from group doc doc' :
  Paths doc = Paths doc' → Definitions doc = Definitions doc' →
  Tags doc = Tags doc' →
  Paths (foldl mergeDoc doc group) = Paths (foldl mergeDoc doc' group) ∧
  Definitions (foldl mergeDoc doc group) = Definitions (foldl mergeDoc doc' group) ∧
  Tags (foldl mergeDoc doc group) = Tags (foldl mergeDoc doc' group).
Proof.
  revert doc doc'. induction group as [|d group IH]; intros doc doc' HP HD HT;
    [done|].
  simpl. apply IH.
  - by rewrite !mergeDoc_Paths, HP.
  - by rewrite !mergeDoc_Definitions, HD.
  - by rewrite !mergeDoc_Tags, HT.
Qed.

(** *** Registered generators *)

(** Every stored document was assembled for its key: the key ends in the
    document's version, and the document has exactly one tag. *)
Lemma registered_docs g key d :
  registered g → docs g !! key = Some d →
  (∃ routePath, key = routePath +:+ "_" +:+ Version (SwInfo d)) ∧
  (∃ tag, Tags d = [tag]).
Proof.
  intros Hreg. revert key d.
  induction Hreg as [|g entityType basePath routePath allRoutes version Hreg IH];
    intros key d Hd.
  - simpl in Hd. by rewrite lookup_empty in Hd.
  - simpl in Hd.
    destruct (decide (routePath +:+ "_" +:+ version = key)) as [<-|Hne].
    + rewrite lookup_insert_eq in Hd. injection Hd as <-. simpl. eauto.
    + rewrite lookup_insert_ne in Hd by done. eauto.
Qed.

Lemma elem_of_versionGroup version visited d :
  d ∈ versionGroup version visited ↔
  ∃ key, (key, d) ∈ visited ∧ keyVersion key = Some version.
Proof.
  unfold versionGroup. rewrite list_elem_of_fmap. split.
  - intros ([key d'] & -> & Hin). apply list_elem_of_filter in Hin as [Hv Hin].
    by exists key.
  - intros (key & Hin & Hv). exists (key, d). split; [done|].
    by apply list_elem_of_filter.
Qed.

(** A merged document exists only under the version piece of some key;
    so there is none under a version with an underscore. *)
Lemma GetAllSwagger_visit_key visited version :
  is_Some (GetAllSwagger_visit visited !! version) →
  ∃ entry, entry ∈ visited ∧ keyVersion entry.1 = Some version.
Proof.
  unfold GetAllSwagger_visit.
  rewrite foldl_mergeIntoVersion_lookup, lookup_empty.
  destruct (versionGroup version visited) as [|d group] eqn:Hgroup.
  - by intros [? ?].
  - intros _. assert (Hd : d ∈ versionGroup version visited).
    { rewrite Hgroup. by left. }
    apply elem_of_versionGroup in Hd as (key & Hin & Hkey).
    by exists (key, d).
Qed.

Lemma underscore_version_has_no_document g version :
  strings_Contains version "_" = true → GetAllSwagger g !! version = None.
Proof.
  intros Hunder. apply eq_None_not_Some. intros Hsome.
  apply GetAllSwagger_visit_key in Hsome as (entry & _ & Hkey).
  apply keyVersion_underscore_free in Hkey. congruence.
Qed.

(** X18. In a generator built by registrations, every stored document is
    filed under the last underscore-separated piece of its version (the
    version itself when it has no underscore), so documents sharing a
    version are merged together. For every version key, the documents filed
    under it being [group] in the order visited: there is a merged document
    exactly when the group is not empty, and then (paths) a path key holds
    the item of the last document of the group that has it, and every path
    of the merged document comes from the group; (definitions) a name holds
    the schema of the first document of the group that defines it, so a name
    defined by one document only is never lost, and every definition comes
    from the group; (tags) the tags are those of the group deduplicated by
    name, the first occurrence kept with its description. *)
Theorem merged_by_version g :
  registered g →
  (∀ key d, docs g !! key = Some d →
     keyVersion key = last (strings_Split (Version (SwInfo d)) "_"%char) ∧
     (strings_Contains (Version (SwInfo d)) "_" = false →
      keyVersion key = Some (Version (SwInfo d)))) ∧
  ∀ version,
    let group := versionGroup version (range (docs g)) in
    (∀ d, d ∈ group ↔
          ∃ key, docs g !! key = Some d ∧ keyVersion key = Some version) ∧
    (group = [] → GetAllSwagger g !! version = None) ∧
    (group ≠ [] →
     ∃ merged, GetAllSwagger g !! version = Some merged ∧
       (∀ pre d post path item,
          group = pre ++ d :: post → Paths d !! path = Some item →
          (∀ d', d' ∈ post → Paths d' !! path = None) →
          Paths merged !! path = Some item) ∧
       (∀ path, is_Some (Paths merged !! path) →
          ∃ d, d ∈ group ∧ is_Some (Paths d !! path)) ∧
       (∀ pre d post name schema,
          group = pre ++ d :: post →
          (∀ d', d' ∈ pre → Definitions d' !! name = None) →
          Definitions d !! name = Some schema →
          Definitions merged !! name = Some schema) ∧
       (∀ name schema, Definitions merged !! name = Some schema →
          ∃ d, d ∈ group ∧ Definitions d !! name = Some schema) ∧
       Tags merged = dedupTags (concat (Tags <$> group))).
Proof.
  intros Hreg. split.
  - intros key d Hd.
    destruct (registered_docs g key d Hreg Hd) as [[routePath ->] _].
    split; [apply keyVersion_registered|apply keyVersion_plain].
  - intros version group.
    assert (Hgroup : ∀ d, d ∈ group ↔
              ∃ key, docs g !! key = Some d ∧ keyVersion key = Some version).
    { intros d. subst group. rewrite elem_of_versionGroup.
      by setoid_rewrite elem_of_range. }
    assert (Hlook : GetAllSwagger g !! version =
              match group with
              | [] => None
              | _ => Some (foldl mergeDoc (newVersionDoc version) group)
              end).
    { unfold GetAllSwagger, GetAllSwagger_visit.
      rewrite foldl_mergeIntoVersion_lookup. fold group.
      rewrite lookup_empty. by destruct group. }
    split; [exact Hgroup|]. split.
    + intros Hnil. by rewrite Hlook, Hnil.
    + intros Hne. exists (foldl mergeDoc (newVersionDoc version) group).
      split; [rewrite Hlook; by destruct group|].
      repeat split.
      * intros pre d post path item -> Hk Hpost.
        by apply foldl_mergeDoc_Paths_last.
      * intros path Hk.
        apply foldl_mergeDoc_Paths_source in Hk as [Hk|Hk]; [|done].
        simpl in Hk. rewrite lookup_empty in Hk. by destruct Hk.
      * intros pre d post name schema -> Hpre Hk.
        by apply foldl_mergeDoc_Definitions_first.
      * intros name schema Hk.
        apply foldl_mergeDoc_Definitions_source in Hk as [Hk|Hk]; [|done].
        simpl in Hk. by rewrite lookup_empty in Hk.
      * rewrite foldl_mergeDoc_Tags; [done|].
        apply Forall_forall. intros d Hd.
        apply Hgroup in Hd as (key & Hd & _).
        destruct (registered_docs g key d Hreg Hd) as [_ [tag ->]].
        apply NoDup_singleton.
Qed.

(** *** The full merge *)

Lemma mergeInto_Paths merged entry :
  Paths (mergeInto merged entry) = Paths entry.2 ∪ Paths merged.
Proof. unfold mergeInto, mergePaths. simpl. apply range_assign_union. Qed.

Lemma mergeInto_Definitions merged entry :
  Definitions (mergeInto merged entry) = Definitions entry.2 ∪ Definitions merged.
Proof.
  unfold mergeInto, mergeDefinitionsOverwrite. simpl. apply range_assign_union.
Qed.

Lemma mergeInto_Tags merged entry :
  Tags (mergeInto merged entry) = Tags merged ++ Tags entry.2.
Proof. reflexivity. Qed.

Lemma mergeSwaggers_visit_snoc visited entry :
  mergeSwaggers_visit (visited ++ [entry]) =
  mergeInto (mergeSwaggers_visit visited) entry.
Proof. unfold mergeSwaggers_visit. by rewrite foldl_app. Qed.

Lemma mergeSwaggers_spec_visit_snoc visited entry :
  mergeSwaggers_spec_visit (visited ++ [entry]) =
  mergeDoc (mergeSwaggers_spec_visit visited) entry.2.
Proof. unfold mergeSwaggers_spec_visit. by rewrite foldl_app. Qed.

Lemma mergeSwaggers_spec_visit_fold visited :
  mergeSwaggers_spec_visit visited = foldl mergeDoc newMergedDoc visited.*2.
Proof.
  unfold mergeSwaggers_spec_visit. generalize newMergedDoc.
  induction visited as [|e visited IH]; intros doc; [done|]. simpl. apply IH.
Qed.

Lemma mergeSwaggers_visit_Paths visited :
  Paths (mergeSwaggers_visit visited) = Paths (mergeSwaggers_spec_visit visited).
Proof.
  induction visited as [|entry visited IH] using rev_ind; [done|].
  rewrite mergeSwaggers_visit_snoc, mergeSwaggers_spec_visit_snoc.
  by rewrite mergeInto_Paths, mergeDoc_Paths, IH.
Qed.

Lemma mergeSwaggers_visit_dom visited :
  dom (Definitions (mergeSwaggers_visit visited)) =
  dom (Definitions (mergeSwaggers_spec_visit visited)).
Proof.
  induction visited as [|entry visited IH] using rev_ind; [done|].
  rewrite mergeSwaggers_visit_snoc, mergeSwaggers_spec_visit_snoc.
  rewrite mergeInto_Definitions, mergeDoc_Definitions, !dom_union_L, IH.
  apply (comm_L (∪)).
Qed.

Lemma mergeSwaggers_visit_Tags visited :
  Tags (mergeSwaggers_visit visited) = concat (Tags <$> visited.*2).
Proof.
  induction visited as [|entry visited IH] using rev_ind; [done|].
  rewrite mergeSwaggers_visit_snoc, mergeInto_Tags, IH.
  rewrite !fmap_app, concat_app. simpl. by rewrite app_nil_r.
Qed.

Lemma mergeSwaggers_visit_last pre entry post name schema :
  Definitions entry.2 !! name = Some schema →
  (∀ e, e ∈ post → Definitions e.2 !! name = None) →
  Definitions (mergeSwaggers_visit (pre ++ entry :: post)) !! name = Some schema.
Proof.
  intros Hk. induction post as [|e post IH] using rev_ind; intros Hpost.
  - rewrite mergeSwaggers_visit_snoc, mergeInto_Definitions.
    by apply lookup_union_Some_l.
  - rewrite app_comm_cons, app_assoc, mergeSwaggers_visit_snoc.
    rewrite mergeInto_Definitions, lookup_union_r.
    + apply IH. intros e' He'. apply Hpost, elem_of_app. by left.
    + apply Hpost, elem_of_app. right. by left.
Qed.

Lemma dedupTags_from_NoDup (seen : gset string) tags :
  NoDup (Tag_Name <$> tags) →
  (∀ tag, tag ∈ tags → Tag_Name tag ∉ seen) →
  dedupTags_from seen tags = tags.
Proof.
  revert seen. induction tags as [|tag tags IH]; intros seen Hnd Hseen; [done|].
  rewrite fmap_cons in Hnd. apply NoDup_cons in Hnd as [Hfresh Hnd].
  simpl. rewrite decide_False by (apply Hseen; by left). f_equal.
  apply IH; [done|]. intros t Ht.
  rewrite elem_of_union, elem_of_singleton. intros [Heq|Hin].
  - apply Hfresh. rewrite <- Heq. apply list_elem_of_fmap. by exists t.
  - revert Hin. apply Hseen. by right.
Qed.

Lemma mergeSwaggers_visit_agree visited :
  (∀ d1 d2 name s1 s2, d1 ∈ visited.*2 → d2 ∈ visited.*2 →
     Definitions d1 !! name = Some s1 → Definitions d2 !! name = Some s2 →
     s1 = s2) →
  Definitions (mergeSwaggers_visit visited) =
  Definitions (mergeSwaggers_spec_visit visited).
Proof.
  induction visited as [|entry visited IH] using rev_ind; intros Hagree; [done|].
  rewrite mergeSwaggers_visit_snoc, mergeSwaggers_spec_visit_snoc.
  rewrite mergeInto_Definitions, mergeDoc_Definitions.
  rewrite fmap_app in Hagree. rewrite IH; cycle 1.
  { intros d1 d2 name s1 s2 H1 H2. apply Hagree; apply elem_of_app; by left. }
  apply map_eq. intros name. rewrite !lookup_union.
  destruct (Definitions entry.2 !! name) as [s1|] eqn:E1,
           (Definitions (mergeSwaggers_spec_visit visited) !! name) as [s2|] eqn:E2;
    try done.
  assert (s1 = s2) as ->; [|done].
  rewrite mergeSwaggers_spec_visit_fold in E2.
  apply foldl_mergeDoc_Definitions_source in E2 as [E2|(d & Hd & E2)].
  - simpl in E2. by rewrite lookup_empty in E2.
  - apply (Hagree entry.2 d name); [|apply elem_of_app; by left|done|done].
    apply elem_of_app. right. simpl. by left.
Qed.

Lemma NoDup_fmap_concat {A B} (f : A → B) (ls : list (list A)) l :
  NoDup (f <$> concat ls) → l ∈ ls → NoDup (f <$> l).
Proof.
  induction ls as [|l' ls IH]; intros Hnd Hl; [by apply elem_of_nil in Hl|].
  simpl in Hnd. rewrite fmap_app in Hnd. apply NoDup_app in Hnd as (Hl' & _ & Hls).
  apply elem_of_cons in Hl as [->|Hl]; [done|by apply IH].
Qed.

Lemma versionGroup_all version visited :
  (∀ e, e ∈ visited → keyVersion e.1 = Some version) →
  versionGroup version visited = visited.*2.
Proof.
  intros Hall. unfold versionGroup. f_equal.
  induction visited as [|e visited IH]; [done|].
  rewrite filter_cons_True by (apply Hall; by left). f_equal.
  apply IH. intros e' He'. apply Hall. by right.
Qed.

(** *** The two definitions tables, name by name *)

Lemma lastSchema_snoc name stored d :
  lastSchema name (stored ++ [d]) =
  match Definitions d !! name with
  | Some schema => Some schema
  | None => lastSchema name stored
  end.
Proof. unfold lastSchema. by rewrite reverse_snoc. Qed.

Lemma mergeSwaggers_visit_lastSchema visited name :
  Definitions (mergeSwaggers_visit visited) !! name = lastSchema name visited.*2.
Proof.
  induction visited as [|entry visited IH] using rev_ind; [done|].
  rewrite mergeSwaggers_visit_snoc, mergeInto_Definitions, lookup_union.
  rewrite fmap_app, (lastSchema_snoc name visited.*2 entry.2), IH.
  by destruct (Definitions entry.2 !! name), (lastSchema name visited.*2).
Qed.

Lemma foldl_mergeDoc_firstSchema group doc name :
  Definitions (foldl mergeDoc doc group) !! name =
  match Definitions doc !! name with
  | Some schema => Some schema
  | None => firstSchema name group
  end.
Proof.
  revert doc. induction group as [|d group IH]; intros doc.
  - simpl. by destruct (Definitions doc !! name).
  - simpl. rewrite IH, mergeDoc_Definitions, lookup_union.
    by destruct (Definitions doc !! name), (Definitions d !! name).
Qed.

Lemma mergeSwaggers_spec_visit_firstSchema visited name :
  Definitions (mergeSwaggers_spec_visit visited) !! name
  = firstSchema name visited.*2.
Proof.
  rewrite mergeSwaggers_spec_visit_fold, foldl_mergeDoc_firstSchema.
  simpl. by rewrite lookup_empty.
Qed.

(** *** Deduplication changes a list exactly when a name repeats *)

Lemma dedupTags_from_length (seen : gset string) tags :
  (length (dedupTags_from seen tags) ≤ length tags)%nat.
Proof.
  revert seen. induction tags as [|tag tags IH]; intros seen; [done|].
  simpl. case_decide; simpl; [|apply le_n_S, IH].
  etrans; [apply IH|]. apply Nat.le_succ_diag_r.
Qed.

Lemma dedupTags_from_fixed (seen : gset string) tags :
  dedupTags_from seen tags = tags →
  NoDup (Tag_Name <$> tags) ∧ ∀ tag, tag ∈ tags → Tag_Name tag ∉ seen.
Proof.
  revert seen. induction tags as [|tag tags IH]; intros seen Hfix.
  - split; [apply NoDup_nil_2|]. intros tag Htag. by apply elem_of_nil in Htag.
  - simpl in Hfix. case_decide as Hin.
    + pose proof (dedupTags_from_length seen tags) as Hlen.
      rewrite Hfix in Hlen. simpl in Hlen. lia.
    + injection Hfix as Hfix. apply IH in Hfix as [Hnd Hseen]. split.
      * rewrite fmap_cons. apply NoDup_cons. split; [|done].
        intros Hdup. apply list_elem_of_fmap in Hdup as (t & Heq & Ht).
        apply (Hseen t Ht). rewrite <- Heq. apply elem_of_union. left.
        by apply elem_of_singleton.
      * intros t Ht. apply elem_of_cons in Ht as [->|Ht]; [done|].
        intros Hs. apply (Hseen t Ht). apply elem_of_union. by right.
Qed.

Lemma dedupTags_fixed_iff tags :
  dedupTags tags = tags ↔ NoDup (Tag_Name <$> tags).
Proof.
  unfold dedupTags. split.
  - intros Hfix. by apply dedupTags_from_fixed in Hfix as [Hnd _].
  - intros Hnd. apply dedupTags_from_NoDup; [done|].
    intros tag _. apply not_elem_of_empty.
Qed.

Lemma mergeSwaggers_spec_visit_Tags visited :
  Forall (λ d, NoDup (Tag_Name <$> Tags d)) visited.*2 →
  Tags (mergeSwaggers_spec_visit visited) = dedupTags (concat (Tags <$> visited.*2)).
Proof.
  intros Hnd. rewrite mergeSwaggers_spec_visit_fold.
  by rewrite foldl_mergeDoc_Tags.
Qed.

(** C3, as amended. The full merge folds the same documents but is not the
    fold of the per-version merge with the version ignored
    ([mergeSwaggers_spec_visit]), which is what the per-version merge
    produces when every document is filed under one version. Its paths are
    that fold's (the last writer wins). Its definitions have the same
    names, but a name holds the schema of the last document that defines it,
    where the fold holds that of the first; so the two tables are equal
    exactly when, for every name, the last and the first document that
    define it give it the same schema, in particular when documents that
    define the same name all give it the same schema. Its tags are the tags
    of all documents in a row, not deduplicated; that list equals itself
    deduplicated by name exactly when no tag name occurs twice in it, and the
    deduplicated list is the tag list of the fold when no single document
    repeats a tag name. *)
Theorem full_merge_overwrites_and_concatenates visited :
  let full := mergeSwaggers_visit visited in
  let ref := mergeSwaggers_spec_visit visited in
  let stored := visited.*2 in
  Paths full = Paths ref ∧
  dom (Definitions full) = dom (Definitions ref) ∧
  (∀ pre d post name schema,
     stored = pre ++ d :: post → Definitions d !! name = Some schema →
     (∀ d', d' ∈ post → Definitions d' !! name = None) →
     Definitions full !! name = Some schema) ∧
  Tags full = concat (Tags <$> stored) ∧
  ((∀ d1 d2 name s1 s2, d1 ∈ stored → d2 ∈ stored →
      Definitions d1 !! name = Some s1 → Definitions d2 !! name = Some s2 →
      s1 = s2) →
   Definitions full = Definitions ref) ∧
  (NoDup (Tag_Name <$> concat (Tags <$> stored)) → Tags full = Tags ref) ∧
  (∀ version, visited ≠ [] →
     (∀ e, e ∈ visited → keyVersion e.1 = Some version) →
     ∃ merged, GetAllSwagger_visit visited !! version = Some merged ∧
       Paths merged = Paths ref ∧ Definitions merged = Definitions ref ∧
       Tags merged = Tags ref) ∧
  (∀ name, Definitions full !! name = lastSchema name stored) ∧
  (∀ name, Definitions ref !! name = firstSchema name stored) ∧
  (Definitions full = Definitions ref ↔
   ∀ name, lastSchema name stored = firstSchema name stored) ∧
  (Tags full = dedupTags (concat (Tags <$> stored)) ↔
   NoDup (Tag_Name <$> concat (Tags <$> stored))) ∧
  (Forall (λ d, NoDup (Tag_Name <$> Tags d)) stored →
   Tags ref = dedupTags (concat (Tags <$> stored)) ∧
   (Tags full = Tags ref ↔ NoDup (Tag_Name <$> concat (Tags <$> stored)))).
Proof.
  intros full ref stored. subst full ref stored.
  split; [apply mergeSwaggers_visit_Paths|].
  split; [apply mergeSwaggers_visit_dom|].
  split.
  { intros pre d post name schema Hsplit Hk Hpost.
    apply fmap_app_inv in Hsplit as (vpre & vrest & -> & Hrest & ->).
    symmetry in Hrest.
    apply fmap_cons_inv in Hrest as (e & vpost & -> & -> & ->).
    apply mergeSwaggers_visit_last; [done|].
    intros e' He'. apply Hpost. apply list_elem_of_fmap. by exists e'. }
  split; [apply mergeSwaggers_visit_Tags|].
  split; [apply mergeSwaggers_visit_agree|].
  split.
  { intros Hnd. rewrite mergeSwaggers_visit_Tags, mergeSwaggers_spec_visit_fold.
    rewrite foldl_mergeDoc_Tags.
    - simpl. symmetry. apply dedupTags_from_NoDup; [done|].
      intros tag _. apply not_elem_of_empty.
    - apply Forall_forall. intros d Hd.
      apply (NoDup_fmap_concat Tag_Name (Tags <$> visited.*2)); [done|].
      apply list_elem_of_fmap. by exists d. }
  split.
  { intros version Hne Hall.
    exists (foldl mergeDoc (newVersionDoc version) visited.*2). split.
    - unfold GetAllSwagger_visit. rewrite foldl_mergeIntoVersion_lookup.
      rewrite versionGroup_all by done. rewrite lookup_empty. simpl.
      destruct visited; [done|]. done.
    - rewrite mergeSwaggers_spec_visit_fold. by apply foldl_mergeDoc_from. }
  split; [apply mergeSwaggers_visit_lastSchema|].
  split; [apply mergeSwaggers_spec_visit_firstSchema|].
  split.
  { rewrite map_eq_iff. split; intros Heq name.
    - by rewrite <- mergeSwaggers_visit_lastSchema,
                 <- mergeSwaggers_spec_visit_firstSchema.
    - by rewrite mergeSwaggers_visit_lastSchema,
                 mergeSwaggers_spec_visit_firstSchema. }
  split.
  { rewrite mergeSwaggers_visit_Tags, <- dedupTags_fixed_iff.
    split; intros Heq; by symmetry. }
  intros Hdocs.
  rewrite (mergeSwaggers_spec_visit_Tags visited Hdocs). split; [done|].
  rewrite mergeSwaggers_visit_Tags, <- dedupTags_fixed_iff.
  split; intros Heq; by symmetry.
Qed.

End MergeProperties.

(** ** The controller *)

Section ControllerProperties.
Import crud.
Context {T Store : Type} `{!ICrudEntity T}.
Variable uuid_Parse : string → option UUID.
Variable strconv_ParseUint : string → option Z.
Variable validator_Validate : T → option Error.

(** *** Identifier decoding *)

(** The guard [any(idTID).(TID)] of [GetById] asserts a value of type
    [TID] to [TID]: it holds for every instantiation. *)
Lemma typeAssert_zeroValue tid : typeAssert tid (zeroValue tid) = Some (zeroValue tid).
Proof. unfold typeAssert. rewrite decide_True; [done|by destruct tid]. Qed.

Lemma decodeId_cases (c : CrudController T Store) id :
  decodeId uuid_Parse strconv_ParseUint c id =
  match uuid_Parse id with
  | Some idUUID => mustAssert (TID c) (AnyUUID idUUID)
  | None =>
      match strconv_ParseUint id with
      | Some idInt => mustAssert (TID c) (AnyUint64 idInt)
      | None => Fail (errors_New ErrInvalidParam "invalid id parameter")
      end
  end.
Proof. unfold decodeId. by rewrite typeAssert_zeroValue. Qed.

(** So the branch reporting a type mismatch is never taken. *)
Lemma decodeId_no_type_error (c : CrudController T Store) id :
  decodeId uuid_Parse strconv_ParseUint c id
  ≠ Fail (errors_New ErrInvalidParam "invalid id parameter type").
Proof.
  rewrite decodeId_cases. unfold mustAssert, typeAssert.
  destruct (uuid_Parse id); [by case_decide|].
  destruct (strconv_ParseUint id); [by case_decide|done].
Qed.

Lemma decodeId_uuid_for_integer (c : CrudController T Store) id idUUID :
  TID c = TUint64 → uuid_Parse id = Some idUUID →
  decodeId uuid_Parse strconv_ParseUint c id = Panic "interface conversion".
Proof.
  intros Htid Hp. rewrite decodeId_cases, Hp.
  unfold mustAssert, typeAssert. by rewrite Htid.
Qed.

Lemma decodeId_integer_for_uuid (c : CrudController T Store) id idInt :
  TID c = TUUID → uuid_Parse id = None → strconv_ParseUint id = Some idInt →
  decodeId uuid_Parse strconv_ParseUint c id = Panic "interface conversion".
Proof.
  intros Htid Hu Hp. rewrite decodeId_cases, Hu, Hp.
  unfold mustAssert, typeAssert. by rewrite Htid.
Qed.

Lemma decodeId_unparseable (c : CrudController T Store) id :
  uuid_Parse id = None → strconv_ParseUint id = None →
  decodeId uuid_Parse strconv_ParseUint c id
  = Fail (errors_New ErrInvalidParam "invalid id parameter").
Proof. intros Hu Hp. by rewrite decodeId_cases, Hu, Hp. Qed.

(** [GetById] on an identifier of the other representation panics, before
    the repository is consulted. *)
Lemma GetById_other_representation (c : CrudController T Store) ctx s :
  Param ctx "id" ≠ EmptyString →
  (TID c = TUint64 ∧ is_Some (uuid_Parse (Param ctx "id"))) ∨
  (TID c = TUUID ∧ uuid_Parse (Param ctx "id") = None ∧
   is_Some (strconv_ParseUint (Param ctx "id"))) →
  GetById uuid_Parse strconv_ParseUint c ctx s = (Panic "interface conversion", s).
Proof.
  intros Hid Hcase. unfold GetById. rewrite decide_False by done.
  unfold bind, lift.
  destruct Hcase as [[Htid [u Hu]]|(Htid & Hu & [n Hn])].
  - by rewrite (decodeId_uuid_for_integer c _ u).
  - by rewrite (decodeId_integer_for_uuid c _ n).
Qed.

(** *** Update and Delete *)

Lemma Delete_unparseable (c : CrudController T Store) ctx s :
  Param ctx "id" ≠ EmptyString → strconv_ParseUint (Param ctx "id") = None →
  Delete strconv_ParseUint c ctx s
  = (Fail (errors_New ErrNotFound "invalid id format"), s).
Proof. intros Hid Hp. unfold Delete. rewrite decide_False by done. by rewrite Hp. Qed.

Lemma Update_unparseable (c : CrudController T Store) ctx s entity :
  Param ctx "id" ≠ EmptyString → strconv_ParseUint (Param ctx "id") = None →
  BindEntity ctx = inr entity → validator_Validate entity = None →
  Update strconv_ParseUint validator_Validate c ctx s
  = (Fail (errors_New ErrNotFound "invalid id format"), s).
Proof.
  intros Hid Hp Hb Hv. unfold Update. rewrite decide_False by done.
  unfold bind. rewrite Hb. simpl. rewrite Hv. simpl. by rewrite Hp.
Qed.

(** A run that stops before the repository adds no call to the log. *)
Local Ltac no_calls :=
  exists []; split; [by rewrite app_nil_r|by intros ? ?%elem_of_nil].

(** C10. For every [Update] request whose path identifier parses as an
    unsigned integer, whatever the repository and the request body: every
    call the handler makes on the repository is an [Update] whose entity
    has the parsed identifier as its ID; and when the body binds and
    validates in an integer-ID controller, there is exactly that one call,
    with the bound entity whose ID has been set to the parsed identifier. *)
Theorem Update_hands_path_id_to_repository
    (R : IRepository T Store) tid ctx s log idInt :
  strconv_ParseUint (Param ctx "id") = Some idInt →
  let c := mkController tid (traced R) in
  let run := Update strconv_ParseUint validator_Validate c ctx (s, log) in
  (∃ calls, run.2.2 = log ++ calls ∧
     ∀ call, call ∈ calls →
       ∃ entity, call = CallUpdate entity ∧ GetID entity = AnyUint64 idInt) ∧
  (∀ body, Param ctx "id" ≠ EmptyString → BindEntity ctx = inr body →
     validator_Validate body = None → tid = TUint64 →
     run.2.2 = log ++ [CallUpdate (SetID body (AnyUint64 idInt))]).
Proof.
  intros Hp c run. subst run c. unfold Update. split.
  - case_decide as Hid; [no_calls|].
    unfold bind.
    destruct (BindEntity ctx) as [err|body]; simpl; [no_calls|].
    destruct (validator_Validate body) as [err|]; simpl; [no_calls|].
    rewrite Hp. unfold lift, mustAssert, typeAssert. simpl.
    case_decide as Htid; simpl; [|no_calls].
    exists [CallUpdate (SetID body (AnyUint64 idInt))]. split.
    + destruct (Repo_Update R (SetID body (AnyUint64 idInt)) s) as [[err entity'] s'].
      by destruct err.
    + intros call Hcall. apply list_elem_of_singleton in Hcall as ->.
      eexists. split; [done|]. apply GetID_SetID.
  - intros body Hid Hb Hv ->. rewrite decide_False by done.
    unfold bind. rewrite Hb. simpl. rewrite Hv. simpl. rewrite Hp. simpl.
    destruct (Repo_Update R (SetID body (AnyUint64 idInt)) s) as [[err entity'] s'].
    by destruct err.
Qed.

(** *** Batch handlers *)

Lemma validateEach_valid entities :
  Forall (λ e, validator_Validate e = None) entities →
  validateEach validator_Validate entities = None.
Proof. induction 1 as [|e entities He _ IH]; simpl; [done|by rewrite He]. Qed.

Lemma validateEach_first_invalid pre bad post err :
  Forall (λ e, validator_Validate e = None) pre →
  validator_Validate bad = Some err →
  validateEach validator_Validate (pre ++ bad :: post) = Some err.
Proof.
  intros Hpre Hbad. induction Hpre as [|e pre He _ IH]; simpl.
  - by rewrite Hbad.
  - by rewrite He.
Qed.

(** A transaction leaves the state as it was unless it succeeds. *)
Lemma inTransaction_rollback {A} (c : CrudController T Store)
    (op : IRepository T Store → Store → option Error * A * Store) s out s' :
  inTransaction c op s = (out, s') → (∀ a, out ≠ Ok a) → s' = s.
Proof.
  unfold inTransaction, Transaction.
  destruct (op (Repository c) s) as [[[err|] a] s'']; intros [= <- <-] Hout.
  - done.
  - by destruct (Hout a).
Qed.

Lemma inTransaction_error {A} (c : CrudController T Store)
    (op : IRepository T Store → Store → option Error * A * Store) s err a s' :
  op (Repository c) s = (Some err, a, s') →
  inTransaction c op s = (Fail err, s).
Proof. intros Hop. unfold inTransaction, Transaction. by rewrite Hop. Qed.

(** The batch handlers hand an empty array of entities on to the
    repository; only [BatchDelete] rejects an empty array itself. *)
Lemma BatchCreate_empty (c : CrudController T Store) ctx s :
  BindEntities ctx = inr [] →
  BatchCreate validator_Validate c ctx s =
  let '(err, entities, s') :=
    Transaction (Repository c) (λ tx, Repo_BatchCreate tx []) s in
  match err with
  | Some e => (Fail e, s')
  | None => (Ok (Success (PEntities entities)), s')
  end.
Proof.
  intros Hb. unfold BatchCreate, bind, inTransaction. rewrite Hb. simpl.
  destruct (Transaction _ _ s) as [[[e|] es] s']; done.
Qed.

Lemma BatchUpdate_empty (c : CrudController T Store) ctx s :
  BindEntities ctx = inr [] →
  BatchUpdate validator_Validate c ctx s =
  let '(err, entities, s') :=
    Transaction (Repository c) (λ tx, Repo_BatchUpdate tx []) s in
  match err with
  | Some e => (Fail e, s')
  | None => (Ok (Success (PEntities entities)), s')
  end.
Proof.
  intros Hb. unfold BatchUpdate, bind, inTransaction. rewrite Hb. simpl.
  destruct (Transaction _ _ s) as [[[e|] es] s']; done.
Qed.

Lemma BatchDelete_empty (c : CrudController T Store) ctx s :
  BindIds ctx = inr [] →
  BatchDelete c ctx s = (Fail (errors_New ErrInvalidParam "no ids provided"), s).
Proof. intros Hb. unfold BatchDelete, bind. by rewrite Hb. Qed.

(** C2. For each batch handler, whatever the repository does inside the
    transaction: a run that does not succeed leaves the storage state as it
    was. If an entity fails validation, [BatchCreate] and [BatchUpdate]
    return the error of the first such entity in the array. If all entities
    are valid and the repository operation fails, its error is returned as
    it is and what the operation had written is rolled back. *)
Theorem batch_is_all_or_nothing (c : CrudController T Store) ctx s :
  (∀ out s', BatchCreate validator_Validate c ctx s = (out, s') →
     (∀ reply, out ≠ Ok reply) → s' = s) ∧
  (∀ out s', BatchUpdate validator_Validate c ctx s = (out, s') →
     (∀ reply, out ≠ Ok reply) → s' = s) ∧
  (∀ out s', BatchDelete c ctx s = (out, s') →
     (∀ reply, out ≠ Ok reply) → s' = s) ∧
  (∀ pre bad post err,
     BindEntities ctx = inr (pre ++ bad :: post) →
     Forall (λ e, validator_Validate e = None) pre →
     validator_Validate bad = Some err →
     BatchCreate validator_Validate c ctx s = (Fail err, s) ∧
     BatchUpdate validator_Validate c ctx s = (Fail err, s)) ∧
  (∀ entities err left s',
     BindEntities ctx = inr entities →
     Forall (λ e, validator_Validate e = None) entities →
     (Repo_BatchCreate (Repository c) entities s = (Some err, left, s') →
      BatchCreate validator_Validate c ctx s = (Fail err, s)) ∧
     (Repo_BatchUpdate (Repository c) entities s = (Some err, left, s') →
      BatchUpdate validator_Validate c ctx s = (Fail err, s))) ∧
  (∀ ids err s',
     BindIds ctx = inr ids → ids ≠ [] →
     Repo_BatchDelete (Repository c) ids s = (Some err, s') →
     BatchDelete c ctx s = (Fail err, s)).
Proof.
  split; [|split; [|split; [|split; [|split]]]].
  - intros out s'. unfold BatchCreate, bind.
    destruct (BindEntities ctx) as [e|entities]; simpl; [by intros [= <- <-]|].
    destruct (validateEach validator_Validate entities); simpl;
      [by intros [= <- <-]|].
    destruct (inTransaction c _ s) as [[r|e|m] s''] eqn:Htx; intros [= <- <-] Hout.
    + by destruct (Hout (Success (PEntities r))).
    + by apply (inTransaction_rollback c _ s _ _ Htx).
    + by apply (inTransaction_rollback c _ s _ _ Htx).
  - intros out s'. unfold BatchUpdate, bind.
    destruct (BindEntities ctx) as [e|entities]; simpl; [by intros [= <- <-]|].
    destruct (validateEach validator_Validate entities); simpl;
      [by intros [= <- <-]|].
    destruct (inTransaction c _ s) as [[r|e|m] s''] eqn:Htx; intros [= <- <-] Hout.
    + by destruct (Hout (Success (PEntities r))).
    + by apply (inTransaction_rollback c _ s _ _ Htx).
    + by apply (inTransaction_rollback c _ s _ _ Htx).
  - intros out s'. unfold BatchDelete, bind.
    destruct (BindIds ctx) as [e|ids]; simpl; [by intros [= <- <-]|].
    case_decide; [by intros [= <- <-]|].
    destruct (inTransaction c _ s) as [[r|e|m] s''] eqn:Htx; intros [= <- <-] Hout.
    + by destruct (Hout (Success PNil)).
    + by apply (inTransaction_rollback c _ s _ _ Htx).
    + by apply (inTransaction_rollback c _ s _ _ Htx).
  - intros pre bad post err Hb Hpre Hbad.
    unfold BatchCreate, BatchUpdate, bind. rewrite Hb. simpl.
    by rewrite (validateEach_first_invalid pre bad post err).
  - intros entities err left s' Hb Hvalid.
    unfold BatchCreate, BatchUpdate, bind. rewrite Hb. simpl.
    rewrite validateEach_valid by done. simpl.
    split; intros Hop; by rewrite (inTransaction_error c _ s err left s').
  - intros ids err s' Hb Hne Hop. unfold BatchDelete, bind. rewrite Hb. simpl.
    rewrite decide_False by (by destruct ids).
    rewrite (inTransaction_error c _ s err tt s'); [done|by rewrite Hop].
Qed.

End ControllerProperties.

(** ** The generator on the sample types *)

Section SampleSchemas.
Import swagger samples.
#[local] Existing Instance canonical_order.

(** The scenario of the specification: the schema of [User]. *)
Example User_schema :
  let schema := generateSchema User in
  SType schema = ["object"%string] ∧
  Properties schema !! "id"%string
    = Some (setFormat "int64" (setType ["integer"%string] emptySchema)) ∧
  Properties schema !! "name"%string
    = Some (setType ["string"%string] emptySchema) ∧
  dom (Properties schema) = {[ "id"%string; "name"%string ]} ∧
  Required schema = ["name"%string].
Proof. repeat split; vm_compute; reflexivity. Qed.

(** C5, counterexample. In [Account], the field [ID] of the embedded [Base]
    carries the required marker and is published as ["id"], yet ["id"] is
    not in [required]; and ["contact"], the published name of two marked
    fields, is there twice. *)
Lemma required_misses_embedded_marked_fields :
  let schema := generateSchema Account in
  markedNames Account = ["id"; "contact"; "contact"]%string ∧
  is_Some (Properties schema !! "id"%string) ∧
  Required schema = ["contact"; "contact"]%string ∧
  occurrences "id" (Required schema) = 0%nat ∧
  occurrences "contact" (Required schema) = 2%nat ∧
  ¬ (∀ name, name ∈ markedNames Account →
             occurrences name (Required schema) = 1%nat).
Proof.
  split; [by vm_compute|]. split; [vm_compute; by eexists|].
  split; [by vm_compute|]. split; [by vm_compute|]. split; [by vm_compute|].
  intros Hall. specialize (Hall "id"%string).
  assert (Hin : "id"%string ∈ markedNames Account) by (vm_compute; by left).
  apply Hall in Hin. vm_compute in Hin. discriminate Hin.
Qed.

(** C5, witness: in [User], ["name"] is in [required] exactly once. *)
Lemma required_lists_direct_marked_fields_witness :
  occurrences "name" (Required (generateSchema User)) = 1%nat.
Proof.
  pose proof (required_lists_direct_marked_fields "User" "models.User"
    [ mkField "ID" uint64_t [("json", "id")] false;
      mkField "Name" string_t [("json", "name"); ("binding", "required")] false ]%string)
    as (_ & _ & Honce & _).
  apply (Honce ltac:(vm_compute; apply NoDup_singleton)
               (mkField "Name" string_t
                  [("json", "name"); ("binding", "required")]%string false)).
  - apply elem_of_cons. right. apply elem_of_cons. by left.
  - exact I.
Defined.

(** C6, counterexample. [Sticker] embeds [Label], a struct with a field of
    its own name: the name of the embedded field is a property key of
    [Sticker]. [Note] embeds [Base] beside a field published as ["Base"]:
    there too the name of the embedded field is a key. *)
Lemma embedded_field_name_is_a_key :
  labelField ∈ [labelField] ∧ Anonymous labelField = true ∧
  Name labelField = "Label"%string ∧
  Properties (generateSchema Sticker) !! Name labelField
    = Some (setType ["string"%string] emptySchema) ∧
  dom (Properties (generateSchema Sticker)) = {[ "Label"%string ]} ∧
  Anonymous baseField = true ∧ Name baseField = "Base"%string ∧
  Properties (generateSchema Note) !! Name baseField
    = Some (setType ["string"%string] emptySchema) ∧
  ¬ (∀ field, field ∈ [labelField] → Anonymous field = true →
       Properties (generateSchema Sticker) !! Name field = None).
Proof.
  split; [by left|]. split; [done|]. split; [done|].
  split; [by vm_compute|]. split; [by vm_compute|].
  split; [done|]. split; [done|]. split; [by vm_compute|].
  intros Hnever.
  assert (Hkey : Properties (generateSchema Sticker) !! Name labelField = None).
  { apply Hnever; [by left|done]. }
  vm_compute in Hkey. discriminate Hkey.
Qed.

(** C6, witness: in [Post], which embeds [*Base], the property
    ["created_at"] of [Base] is a property of the parent; ["id"], written by
    [Base] and by the later field [Slug], holds the schema of [Slug]; and
    ["Base"], which no field writes, is not a key. *)
Lemma embedded_fields_are_spliced_witness :
  Properties (generateSchema Post) !! "created_at"%string
    = Some (setFormat "date-time" (setType ["string"%string] emptySchema)) ∧
  Properties (generateSchema Post) !! "id"%string
    = Some (setType ["string"%string] emptySchema) ∧
  Properties (generateSchema Post) !! "Base"%string = None.
Proof.
  pose proof (embedded_fields_are_spliced "Post" "models.Post"
                [basePtrField; titleField; slugField])
    as (_ & Hemb & _ & _ & Hname & Hlast).
  split; [|split].
  - apply (Hemb [] basePtrField [titleField; slugField] Base);
      [done|done|done|by vm_compute|].
    intros g Hg.
    apply elem_of_cons in Hg as [->|Hg]; [by vm_compute|].
    apply list_elem_of_singleton in Hg as ->. by vm_compute.
  - apply (Hlast [basePtrField; titleField] slugField []); [done|by vm_compute|].
    intros g Hg. by apply elem_of_nil in Hg.
  - apply (Hname basePtrField); [by left|done|].
    intros g Hg.
    apply elem_of_cons in Hg as [->|Hg]; [by vm_compute|].
    apply elem_of_cons in Hg as [->|Hg]; [by vm_compute|].
    apply list_elem_of_singleton in Hg as ->. by vm_compute.
Defined.

(** C7, counterexample. The routes [reqRoutes] carry two request samples
    named [Req]; the first one visited is [ReqA], and the definition of
    [Req] in the assembled document is the schema of [ReqB]. *)
Lemma first_sample_schema_is_replaced :
  let doc := assembleDocument User "/api/v1" "users" reqRoutes "v1" in
  samplesVisited (range (groupRoutes "users" reqRoutes))
    = [Some ReqA; None; Some ReqB; None] ∧
  sampleName "User" (Some ReqA) = Some "Req"%string ∧
  sampleName "User" (Some ReqB) = Some "Req"%string ∧
  Definitions doc !! "Req"%string = Some (generateSchema ReqB) ∧
  Definitions doc !! "Req"%string ≠ Some (generateSchema ReqA).
Proof.
  split; [by vm_compute|]. split; [by vm_compute|]. split; [by vm_compute|].
  split; [by vm_compute|].
  intros Heq.
  assert (Hage : (λ schema, Properties schema !! "age"%string)
                   <$> (Definitions
                          (assembleDocument User "/api/v1" "users" reqRoutes "v1")
                          !! "Req"%string)
                 = Some None) by (by rewrite Heq).
  vm_compute in Hage. discriminate Hage.
Qed.

(** C7, witness: the definition of [Req] is the schema of the sample
    visited last. *)
Lemma definitions_last_sample_wins_witness :
  Definitions (assembleDocument User "/api/v1" "users" reqRoutes "v1")
    !! "Req"%string = Some (generateSchema ReqB).
Proof.
  pose proof (definitions_last_sample_wins User "/api/v1" "users" reqRoutes "v1")
    as (_ & Hlast & _).
  apply (Hlast [Some ReqA; None] ReqB [None]); [by vm_compute|by vm_compute|].
  intros s Hs. apply list_elem_of_singleton in Hs as ->. by vm_compute.
Defined.

(** *** The merged views of the sample registry *)

Lemma registry_registered : registered registry.
Proof. unfold registry. repeat apply registered_entity. apply registered_new. Qed.

(** The scenario of the specification: the merged view for [v1] has base
    path [/api/v1] and the paths of [orders]. *)
Example merged_v1_scenario :
  ∃ merged, GetAllSwagger registry !! "v1"%string = Some merged ∧
    BasePath merged = "/api/v1"%string ∧
    is_Some (Paths merged !! "/orders"%string) ∧
    is_Some (Paths merged !! "/orders/{id}"%string).
Proof.
  destruct (GetAllSwagger registry !! "v1"%string) as [merged|] eqn:E;
    [|by vm_compute in E].
  exists merged. split; [done|].
  assert (Hb : BasePath <$> GetAllSwagger registry !! "v1"%string
               = Some "/api/v1"%string) by (by vm_compute).
  assert (Hp1 : (λ d, bool_decide (is_Some (Paths d !! "/orders"%string)))
                  <$> GetAllSwagger registry !! "v1"%string = Some true)
    by (by vm_compute).
  assert (Hp2 : (λ d, bool_decide (is_Some (Paths d !! "/orders/{id}"%string)))
                  <$> GetAllSwagger registry !! "v1"%string = Some true)
    by (by vm_compute).
  rewrite E in Hb, Hp1, Hp2. simpl in *.
  injection Hb as Hb. injection Hp1 as Hp1. injection Hp2 as Hp2.
  split; [done|]. split; by eapply bool_decide_eq_true_1.
Qed.

(** X18, witness: the merged document for [v1] has the tags of [orders]
    and [users], each once. *)
Lemma merged_by_version_witness :
  ∃ merged, GetAllSwagger registry !! "v1"%string = Some merged ∧
    Tags merged =
    dedupTags (concat (Tags <$> versionGroup "v1" (range (docs registry)))).
Proof.
  destruct (merged_by_version registry registry_registered) as [_ Hmerge].
  destruct (Hmerge "v1"%string) as (_ & _ & Hsome).
  destruct Hsome as (merged & Hlook & _ & _ & _ & _ & Htags).
  - vm_compute. discriminate.
  - exists merged. split; [exact Hlook|exact Htags].
Defined.

(** C4, the code at the failing input. [underscored] holds the document of
    [users], of version [v1], and the document of [members], of version
    [x_v1]. [GetAllSwagger] takes as the version of a document the last piece
    of its key split at ["_"], so the document of version [x_v1] is filed
    under [v1]: the merged view has no document for [x_v1], and its document
    for [v1] has the paths of [members] and, that document being the first
    visited, its definition of [User] in place of the one the only document
    of version [v1] gives. Likewise the versions [v1_0] and [v2_0] are both
    filed under ["0"]. *)
Theorem version_with_underscore_is_misfiled :
  (range (docs underscored)).*1 = ["members_x_v1"; "users_v1"]%string ∧
  Version ∘ SwInfo <$> GetSwagger underscored "members_x_v1" = Some "x_v1"%string ∧
  Version ∘ SwInfo <$> GetSwagger underscored "users_v1" = Some "v1"%string ∧
  (λ d, Definitions d !! "User"%string) <$> GetSwagger underscored "users_v1"
    = Some (Some (generateSchema User)) ∧
  keyVersion "members_x_v1" = Some "v1"%string ∧
  GetAllSwagger underscored !! "x_v1"%string = None ∧
  dom (GetAllSwagger underscored) = {[ "v1"%string ]} ∧
  dom ∘ Paths <$> GetAllSwagger underscored !! "v1"%string
    = Some {[ "/members"; "/members/{id}"; "/users"; "/users/{id}" ]}%string ∧
  (λ d, Definitions d !! "User"%string) <$> GetAllSwagger underscored !! "v1"%string
    = Some (Some (generateSchema UserV2)) ∧
  generateSchema UserV2 ≠ generateSchema User ∧
  keyVersion "users_v1_0" = Some "0"%string ∧
  keyVersion "users_v2_0" = Some "0"%string.
Proof.
  do 9 (split; [vm_compute; reflexivity|]).
  split; [|split; vm_compute; reflexivity].
  intros Heq.
  apply (f_equal (λ schema, bool_decide (is_Some (Properties schema !! "email"%string))))
    in Heq.
  vm_compute in Heq. discriminate Heq.
Qed.

(** C3, counterexample. In the sample registry [users] is registered under
    [v1] and, reshaped, under [v2]. The full merge has the tag [User] twice
    and defines [User] by the schema of the document visited last; the fold
    of the per-version merge with the version ignored has the tag once and
    keeps the schema of the document visited first. *)
Lemma full_merge_is_not_the_version_fold :
  let full := mergeSwaggers registry in
  let ref := mergeSwaggers_spec registry in
  (range (docs registry)).*1 = ["orders_v1"; "users_v1"; "users_v2"]%string ∧
  Tag_Name <$> Tags full = ["Order"; "User"; "User"]%string ∧
  Tag_Name <$> Tags ref = ["Order"; "User"]%string ∧
  Definitions full !! "User"%string = Some (generateSchema UserV2) ∧
  Definitions ref !! "User"%string = Some (generateSchema User) ∧
  Tags full ≠ Tags ref ∧
  Definitions full ≠ Definitions ref.
Proof.
  split; [by vm_compute|]. split; [by vm_compute|]. split; [by vm_compute|].
  split; [by vm_compute|]. split; [by vm_compute|]. split.
  - intros Heq. apply (f_equal length) in Heq. vm_compute in Heq. discriminate Heq.
  - intros Heq.
    apply (f_equal (λ defs : gmap string Schema,
                      (λ schema, bool_decide (is_Some (Properties schema !! "email"%string)))
                        <$> defs !! "User"%string)) in Heq.
    vm_compute in Heq. discriminate Heq.
Qed.

(** C3, witness: on the two documents of [v1], whose tag names differ, the
    full merge has the tags of the version-ignoring fold, which are the tags
    deduplicated, and the per-version merge for [v1] has the components of
    that fold. *)
Lemma full_merge_overwrites_and_concatenates_witness :
  Tags (mergeSwaggers_visit v1_entries) = Tags (mergeSwaggers_spec_visit v1_entries) ∧
  Tags (mergeSwaggers_spec_visit v1_entries)
    = dedupTags (concat (Tags <$> v1_entries.*2)) ∧
  ∃ merged, GetAllSwagger_visit v1_entries !! "v1"%string = Some merged ∧
    Paths merged = Paths (mergeSwaggers_spec_visit v1_entries) ∧
    Definitions merged = Definitions (mergeSwaggers_spec_visit v1_entries) ∧
    Tags merged = Tags (mergeSwaggers_spec_visit v1_entries).
Proof.
  pose proof (full_merge_overwrites_and_concatenates v1_entries)
    as (_ & _ & _ & _ & _ & Htags & Hversion & _ & _ & _ & _ & Hdocs).
  split; [|split].
  - apply Htags. vm_compute. apply NoDup_cons. split.
    + intros Hin. apply list_elem_of_singleton in Hin. discriminate Hin.
    + apply NoDup_singleton.
  - refine (proj1 (Hdocs _)).
    apply Forall_cons. split; [apply NoDup_singleton|].
    apply Forall_cons. split; [apply NoDup_singleton|apply Forall_nil_2].
  - apply Hversion; [done|].
    intros e He. apply elem_of_cons in He as [->|He]; [by vm_compute|].
    apply list_elem_of_singleton in He as ->. by vm_compute.
Defined.

(** Agreement of all documents is not needed for equal tables: in
    [sandwich] the documents are visited in the order [members_v1],
    [users_v2], [accounts_v1]; the middle one alone defines [User] with an
    [email] property, yet the first and the last agree, and the full merge
    has the definitions of the version-ignoring fold. *)
Example full_merge_equal_definitions_without_agreement :
  (range (docs sandwich)).*1 = ["members_v1"; "users_v2"; "accounts_v1"]%string ∧
  (λ d, (λ schema, bool_decide (is_Some (Properties schema !! "email"%string)))
          <$> Definitions d !! "User"%string)
    <$> (range (docs sandwich)).*2 = [Some false; Some true; Some false] ∧
  Definitions (mergeSwaggers sandwich) = Definitions (mergeSwaggers_spec sandwich).
Proof.
  split; [by vm_compute|]. split; [by vm_compute|].
  vm_compute. reflexivity.
Qed.

End SampleSchemas.

(** ** The controller on sample requests *)

Section SampleRequests.
Import crud.

(** C1, the code at the failing inputs. With an integer [TID], [GetById] on
    a UUID-shaped identifier panics at the unchecked assertion
    [any(idUUID).(TID)], and with a UUID [TID] it panics on a numeric
    identifier at [any(idInt).(TID)]: neither run returns an
    invalid-parameter error. An identifier parseable as neither does yield
    one. *)
Theorem GetById_wrong_representation_panics :
  uuid_Parse "123e4567-e89b-12d3-a456-426614174000"
    = Some [18; 62; 69; 103; 232; 155; 18; 211; 164; 86; 66; 102; 20; 23; 64; 0] ∧
  GetById uuid_Parse ParseUint_10_64 (userController TUint64)
          (pathRequest "123e4567-e89b-12d3-a456-426614174000") sampleStore
    = (Panic "interface conversion", sampleStore) ∧
  uuid_Parse "42" = None ∧ ParseUint_10_64 "42" = Some 42 ∧
  GetById uuid_Parse ParseUint_10_64 (userController TUUID)
          (pathRequest "42") sampleStore
    = (Panic "interface conversion", sampleStore) ∧
  GetById uuid_Parse ParseUint_10_64 (userController TUint64)
          (pathRequest "not-an-id") sampleStore
    = (Fail (AppError ErrInvalidParam "invalid id parameter"), sampleStore).
Proof. repeat split; vm_compute; reflexivity. Qed.

(** The same identifier under the matching [TID] is looked up. *)
Example GetById_matching_representation :
  GetById uuid_Parse ParseUint_10_64 (userController TUint64)
          (pathRequest "1") sampleStore
    = (Ok (Success (PEntity ann)), sampleStore) ∧
  GetById uuid_Parse ParseUint_10_64 (userController TUUID)
          (pathRequest "123e4567-e89b-12d3-a456-426614174000") sampleStore
    = (Fail (AppError ErrNotFound "record not found"), sampleStore).
Proof. repeat split; vm_compute; reflexivity. Qed.

(** C8, the code at the failing input. On the identifier ["abc"], which is
    present and does not parse as an unsigned integer, [Delete] and [Update]
    report [ErrNotFound] (with the message "invalid id format"), where
    [GetById] reports [ErrInvalidParam] for the same identifier. *)
Theorem Update_Delete_unparseable_id_is_NotFound :
  ParseUint_10_64 "abc" = None ∧
  Delete ParseUint_10_64 (userController TUint64) (pathRequest "abc") sampleStore
    = (Fail (AppError ErrNotFound "invalid id format"), sampleStore) ∧
  Update ParseUint_10_64 userValidate (userController TUint64)
         (request "abc" (inr ann) noBody noBody) sampleStore
    = (Fail (AppError ErrNotFound "invalid id format"), sampleStore) ∧
  GetById uuid_Parse ParseUint_10_64 (userController TUint64)
          (pathRequest "abc") sampleStore
    = (Fail (AppError ErrInvalidParam "invalid id parameter"), sampleStore).
Proof. repeat split; vm_compute; reflexivity. Qed.

(** C9, the code at the failing input. On an empty array, [BatchCreate] and
    [BatchUpdate] run the repository operation on it and succeed; only
    [BatchDelete] answers [ErrInvalidParam]. *)
Theorem empty_batch_rejected_only_by_BatchDelete :
  BatchCreate userValidate (userController TUint64)
              (request "" noBody (inr []) noBody) sampleStore
    = (Ok (Success (PEntities [])), sampleStore) ∧
  BatchUpdate userValidate (userController TUint64)
              (request "" noBody (inr []) noBody) sampleStore
    = (Ok (Success (PEntities [])), sampleStore) ∧
  BatchDelete (userController TUint64)
              (request "" noBody noBody (inr [])) sampleStore
    = (Fail (AppError ErrInvalidParam "no ids provided"), sampleStore).
Proof. repeat split; vm_compute; reflexivity. Qed.

(** C2, witness. A [BatchCreate] of three users of which the second fails
    validation returns that error and stores none of them; and one whose
    second user has the identifier of a stored user fails in the
    repository after the first was written, and the store is as before. *)
Lemma batch_is_all_or_nothing_witness :
  BatchCreate userValidate (userController TUint64)
              (request "" noBody (inr [bob; nameless; dan]) noBody) sampleStore
    = (Fail (ValidationError "Name is required"), sampleStore) ∧
  BatchCreate userValidate (userController TUint64)
              (request "" noBody (inr [bob; ann; dan]) noBody) sampleStore
    = (Fail (RepositoryError "duplicate key"), sampleStore).
Proof.
  pose proof (batch_is_all_or_nothing userValidate (userController TUint64)
                (request "" noBody (inr [bob; nameless; dan]) noBody) sampleStore)
    as (_ & _ & _ & Hinvalid & _).
  pose proof (batch_is_all_or_nothing userValidate (userController TUint64)
                (request "" noBody (inr [bob; ann; dan]) noBody) sampleStore)
    as (_ & _ & _ & _ & Hrepo & _).
  split.
  - apply (Hinvalid [bob] nameless [dan]); [reflexivity| |reflexivity].
    apply Forall_cons. split; [reflexivity|apply Forall_nil_2].
  - apply (Hrepo [bob; ann; dan] (RepositoryError "duplicate key")
                 [bob; ann; dan] [ann; bob]); [reflexivity| |reflexivity].
    repeat (apply Forall_cons; split; [reflexivity|]). apply Forall_nil_2.
Defined.

(** C10, witness. [Update] on path identifier ["1"] with a body whose ID is
    99 hands the repository the entity with ID 1. *)
Lemma Update_hands_path_id_to_repository_witness :
  (Update ParseUint_10_64 userValidate
          (mkController TUint64 (traced memRepository))
          (request "1" (inr (mkUser (AnyUint64 99) "ann b.")) noBody noBody)
          (sampleStore, [])).2.2
  = [CallUpdate (mkUser (AnyUint64 1) "ann b.")].
Proof.
  pose proof (Update_hands_path_id_to_repository ParseUint_10_64 userValidate
                memRepository TUint64
                (request "1" (inr (mkUser (AnyUint64 99) "ann b.")) noBody noBody)
                sampleStore [] 1 ltac:(reflexivity)) as [_ Hcall].
  apply (Hcall (mkUser (AnyUint64 99) "ann b.")); [discriminate|reflexivity..].
Defined.

End SampleRequests.

(* ===================================================================== *)
(** * Part III: further properties of the code *)
(* ===================================================================== *)

(** ** Shape of the generated schemas *)

Section SchemaShape.
Context {order : RangeOrder}.
Import swagger.

Lemma is_Some_union_r {A} (m1 m2 : gmap string A) k :
  is_Some (m2 !! k) → is_Some ((m1 ∪ m2) !! k).
Proof.
  intros [v Hv]. rewrite lookup_union. destruct (m1 !! k); rewrite Hv; by eexists.
Qed.

Lemma fieldStep_keeps_required_keys schema field :
  (∀ name, name ∈ Required schema → is_Some (Properties schema !! name)) →
  ∀ name, name ∈ Required (fieldStep generateSchema schema field) →
          is_Some (Properties (fieldStep generateSchema schema field) !! name).
Proof.
  intros Hinv name. rewrite fieldStep_Required, fieldStep_Properties.
  intros Hin. apply elem_of_app in Hin as [Hin|Hin].
  - by apply is_Some_union_r, Hinv.
  - destruct (entersRequired field) eqn:Henters; [|by apply elem_of_nil in Hin].
    apply list_elem_of_singleton in Hin as ->.
    unfold entersRequired in Henters. unfold fieldWrites.
    destruct (Anonymous field); [done|]. simpl in Henters.
    apply andb_prop in Henters as [Hskip _]. apply bool_decide_eq_true_1 in Hskip.
    rewrite decide_False by done.
    rewrite lookup_union, lookup_singleton_eq.
    destruct (Properties schema !! fieldName field); by eexists.
Qed.

Lemma foldl_fieldStep_required_keys fields schema :
  (∀ name, name ∈ Required schema → is_Some (Properties schema !! name)) →
  ∀ name, name ∈ Required (foldl (fieldStep generateSchema) schema fields) →
          is_Some (Properties (foldl (fieldStep generateSchema) schema fields) !! name).
Proof.
  revert schema. induction fields as [|field fields IH]; intros schema Hinv; [done|].
  simpl. apply IH. by apply fieldStep_keeps_required_keys.
Qed.

(** X1. For every type, each name in the [required] list of the generated
    schema is a key of its [properties]. *)
Theorem required_names_are_properties (t : GoType) name :
  name ∈ Required (generateSchema t) →
  is_Some (Properties (generateSchema t) !! name).
Proof.
  assert (Hflat : ∀ t', (∀ e, t' ≠ TPtr e) →
            name ∈ Required (generateSchema t') →
            is_Some (Properties (generateSchema t') !! name)).
  { intros t' Hnp. destruct t' as [k n|e|n e|n s fields]; simpl.
    - by intros ?%elem_of_nil.
    - by destruct (Hnp e).
    - by intros ?%elem_of_nil.
    - apply foldl_fieldStep_required_keys. by intros ? ?%elem_of_nil. }
  destruct t as [k n|e|n e|n s fields]; try (apply Hflat; congruence).
  destruct e as [k n|e|n e|n s fields]; simpl.
  - by intros ?%elem_of_nil.
  - by intros ?%elem_of_nil.
  - by intros ?%elem_of_nil.
  - apply foldl_fieldStep_required_keys. by intros ? ?%elem_of_nil.
Qed.

(** The loop over the fields touches [properties] and [required] only. *)
Lemma fieldStep_frame schema field :
  let schema' := fieldStep generateSchema schema field in
  SType schema' = SType schema ∧ Format schema' = Format schema ∧
  Items schema' = Items schema ∧ Description schema' = Description schema ∧
  SExample schema' = SExample schema ∧ Ref schema' = Ref schema.
Proof.
  unfold fieldStep. destruct (Anonymous field); simpl; [done|].
  case_decide; [done|]. by case_decide.
Qed.

Lemma foldl_fieldStep_frame fields schema :
  let schema' := foldl (fieldStep generateSchema) schema fields in
  SType schema' = SType schema ∧ Format schema' = Format schema ∧
  Items schema' = Items schema ∧ Description schema' = Description schema ∧
  SExample schema' = SExample schema ∧ Ref schema' = Ref schema.
Proof.
  revert schema. induction fields as [|field fields IH]; intros schema; [done|].
  simpl. destruct (IH (fieldStep generateSchema schema field))
    as (-> & -> & -> & -> & -> & ->).
  apply fieldStep_frame.
Qed.

(** X2. The schema generated for a type, by what the type is after the one
    pointer step: for a slice, an array whose items are the schema of the
    element type, without properties; for a struct, an object without items;
    for anything else (a basic kind, a map, an interface, a pointer to a
    pointer) the bare object. It never has a format, a reference, a
    description or an example of its own. *)
Theorem generateSchema_shape (t : GoType) :
  let schema := generateSchema t in
  Format schema = EmptyString ∧ Ref schema = EmptyString ∧
  Description schema = EmptyString ∧ SExample schema = None ∧
  match derefPtr t with
  | TSlice _ elem =>
      SType schema = ["array"%string] ∧ Items schema = Some (generateSchema elem) ∧
      Properties schema = ∅ ∧ Required schema = []
  | TStruct _ _ _ => SType schema = ["object"%string] ∧ Items schema = None
  | _ => schema = objectSchema
  end.
Proof.
  assert (Hstruct : ∀ fields,
    let schema := foldl (fieldStep generateSchema) objectSchema fields in
    Format schema = EmptyString ∧ Ref schema = EmptyString ∧
    Description schema = EmptyString ∧ SExample schema = None ∧
    SType schema = ["object"%string] ∧ Items schema = None).
  { intros fields schema.
    destruct (foldl_fieldStep_frame fields objectSchema)
      as (HT & HF & HI & HD & HE & HR).
    subst schema. by rewrite HT, HF, HI, HD, HE, HR. }
  destruct t as [k n|e|n e|n s fields]; simpl;
    [done|destruct e as [k n|e|n e|n s fields]; simpl|done|];
    first [apply Hstruct|done].
Qed.

(** *** Field schemas *)

(** X3. What becomes of the [description] and [example] tags of a field.
    For a field of pointer type, or of a struct type other than [time.Time],
    the field schema is the generated schema of the pointee, or of the
    struct, and the two tags are dropped. For every other field type the description is the tag, and the
    example is the tag when it is not empty. *)
Theorem field_tags_kept_or_dropped (field : StructField) :
  let schema := getFieldSchema field in
  if inlinedType (FType field) then
    schema = generateSchema (derefPtr (FType field)) ∧
    Description schema = EmptyString ∧ SExample schema = None
  else
    Description schema = Tag_Get (Tag field) "description" ∧
    SExample schema =
      (if decide (Tag_Get (Tag field) "example" = EmptyString) then None
       else Some (Tag_Get (Tag field) "example")).
Proof.
  unfold getFieldSchema, getFieldSchema_with, inlinedType.
  destruct (FType field) as [k n|e|n e|n s fields] eqn:Hty.
  - destruct k; simpl; repeat case_decide; simpl; split; congruence.
  - simpl. split; [done|].
    by destruct (generateSchema_shape e) as (_ & _ & -> & -> & _).
  - simpl. repeat case_decide; simpl; split; congruence.
  - case_bool_decide as Htime.
    + rewrite decide_False by done. split; [done|].
      by destruct (generateSchema_shape (TStruct n s fields)) as (_ & _ & -> & -> & _).
    + rewrite decide_True by done.
      simpl. repeat case_decide; simpl; split; congruence.
Qed.

(** *** Fields that leave no trace *)

Lemma setProperties_same schema : setProperties (Properties schema) schema = schema.
Proof. by destruct schema. Qed.

Lemma fieldStep_inert schema field :
  inertField field → fieldStep generateSchema schema field = schema.
Proof.
  unfold inertField, fieldStep. destruct (Anonymous field).
  - intros Hinert.
    assert (Properties (generateSchema (FType field)) = ∅) as ->.
    { pose proof (generateSchema_shape (FType field)) as (_ & _ & _ & _ & Hshape).
      destruct (derefPtr (FType field)) as [k n|e|n e|n s fields]; simpl in *.
      - by rewrite Hshape.
      - by rewrite Hshape.
      - by destruct Hshape as (_ & _ & -> & _).
      - done. }
    rewrite spliceProperties_union, (left_id ∅ _). apply setProperties_same.
  - intros Hskip%bool_decide_unpack. by rewrite decide_True.
Qed.

(** X4. A named field skipped by [json:"-"], and an embedded field whose
    type is not a struct (after the pointer step), leave no trace: the schema
    of the struct is the schema of the struct without that field. *)
Theorem inert_field_leaves_no_trace tname tstring pre field post :
  inertField field →
  generateSchema (TStruct tname tstring (pre ++ field :: post)) =
  generateSchema (TStruct tname tstring (pre ++ post)).
Proof.
  intros Hinert. rewrite !generateSchema_struct, !foldl_app. simpl.
  by rewrite fieldStep_inert.
Qed.

End SchemaShape.

(** ** Documented paths *)

Section DocumentedPaths.
Import swagger.
#[local] Arguments ascii_dec : simpl never.

(** The replacement of [":id"] by ["{id}"], one step at a time. *)
Lemma replace_id_match rest :
  strings_ReplaceAll (String ":" (String "i" (String "d" rest))) ":id" "{id}"
  = String "{" (String "i" (String "d" (String "}"
      (strings_ReplaceAll rest ":id" "{id}")))).
Proof. unfold strings_ReplaceAll. simpl. by destruct rest. Qed.

Lemma replace_id_other c rest :
  String.prefix ":id" (String c rest) = false →
  strings_ReplaceAll (String c rest) ":id" "{id}"
  = String c (strings_ReplaceAll rest ":id" "{id}").
Proof. unfold strings_ReplaceAll. intros H. simpl in *. by rewrite H. Qed.

Lemma prefix_id_inv s :
  String.prefix ":id" s = true → ∃ rest, s = String ":" (String "i" (String "d" rest)).
Proof.
  destruct s as [|c1 [|c2 [|c3 rest]]]; simpl; try done.
  - by destruct (ascii_dec ":" c1).
  - destruct (ascii_dec ":" c1); [|done]. by destruct (ascii_dec "i" c2).
  - destruct (ascii_dec ":" c1) as [<-|]; [|done].
    destruct (ascii_dec "i" c2) as [<-|]; [|done].
    destruct (ascii_dec "d" c3) as [<-|]; [|done].
    intros _. by exists rest.
Qed.

Lemma replace_id_cases s :
  (∃ rest, s = String ":" (String "i" (String "d" rest)) ∧
     strings_ReplaceAll s ":id" "{id}"
     = String "{" (String "i" (String "d" (String "}"
      (strings_ReplaceAll rest ":id" "{id}"))))) ∨
  (s = EmptyString ∧ strings_ReplaceAll s ":id" "{id}" = EmptyString) ∨
  (∃ c rest, s = String c rest ∧ String.prefix ":id" s = false ∧
     strings_ReplaceAll s ":id" "{id}"
     = String c (strings_ReplaceAll rest ":id" "{id}")).
Proof.
  destruct (String.prefix ":id" s) eqn:Hp.
  - left. apply prefix_id_inv in Hp as [rest ->]. exists rest.
    split; [done|apply replace_id_match].
  - right. destruct s as [|c rest]; [by left|right].
    exists c, rest. split; [done|]. split; [done|by apply replace_id_other].
Qed.

(** The first bytes of the result come from the first bytes of the input. *)
Lemma replace_id_prefix_d s :
  String.prefix "d" (strings_ReplaceAll s ":id" "{id}") = true →
  String.prefix "d" s = true.
Proof.
  destruct (replace_id_cases s) as [(rest & -> & ->)|[[-> ->]|(c & rest & -> & _ & ->)]].
  - simpl. by destruct (ascii_dec "d" "{").
  - done.
  - simpl. destruct (ascii_dec "d" c); [|done].
    intros _. by destruct rest.
Qed.

Lemma replace_id_prefix_id s :
  String.prefix "id" (strings_ReplaceAll s ":id" "{id}") = true →
  String.prefix "id" s = true.
Proof.
  destruct (replace_id_cases s) as [(rest & -> & ->)|[[-> ->]|(c & rest & -> & _ & ->)]].
  - simpl. by destruct (ascii_dec "i" "{").
  - done.
  - simpl. destruct (ascii_dec "i" c); [|done]. apply replace_id_prefix_d.
Qed.

Lemma replace_id_prefix_cons c rest :
  String.prefix ":id" (String c (strings_ReplaceAll rest ":id" "{id}")) = true →
  String.prefix ":id" (String c rest) = true.
Proof.
  simpl. destruct (ascii_dec ":" c); [|done]. apply replace_id_prefix_id.
Qed.

Lemma replace_id_leaves_none_bounded n s :
  (String.length s ≤ n)%nat →
  strings_Contains (strings_ReplaceAll s ":id" "{id}") ":id" = false.
Proof.
  revert s. induction n as [|n IH]; intros s Hlen.
  - destruct s; [done|simpl in Hlen; lia].
  - destruct (replace_id_cases s)
      as [(rest & -> & ->)|[[-> ->]|(c & rest & -> & Hp & ->)]].
    + assert (strings_Contains (strings_ReplaceAll rest ":id" "{id}") ":id" = false)
        as Hrest by (apply IH; simpl in Hlen; lia).
      simpl. rewrite Hrest.
      destruct (ascii_dec ":" "{"); [done|]. destruct (ascii_dec ":" "i"); [done|].
      destruct (ascii_dec ":" "d"); [done|]. by destruct (ascii_dec ":" "}").
    + done.
    + assert (strings_Contains (strings_ReplaceAll rest ":id" "{id}") ":id" = false)
        as Hrest by (apply IH; simpl in Hlen; lia).
      change (strings_Contains (String c ?r) ?x)
        with (String.prefix x (String c r) || strings_Contains r x).
      rewrite Hrest, orb_false_r.
      destruct (String.prefix ":id" (String c (strings_ReplaceAll rest ":id" "{id}")))
        eqn:Hq; [|done].
      apply replace_id_prefix_cons in Hq. congruence.
Qed.

Lemma replace_id_leaves_none s :
  strings_Contains (strings_ReplaceAll s ":id" "{id}") ":id" = false.
Proof. by apply (replace_id_leaves_none_bounded (String.length s)). Qed.

Lemma replace_id_without s :
  strings_Contains s ":id" = false → strings_ReplaceAll s ":id" "{id}" = s.
Proof.
  induction s as [|c rest IH]; [done|].
  change (strings_Contains (String c rest) ":id")
    with (String.prefix ":id" (String c rest) || strings_Contains rest ":id").
  intros [Hp Hrest]%orb_false_elim.
  rewrite replace_id_other by done. by rewrite IH.
Qed.

(** *** Grouping of the routes *)

Lemma foldl_groupRoutes_lookup routePath allRoutes
    (routeGroups : gmap string (list APIRoute)) path :
  foldl (λ (routeGroups : gmap string (list APIRoute)) route,
           let path := "/" +:+ routePath +:+ Route_Path route in
           let path := strings_ReplaceAll path ":id" "{id}" in
           <[path := default [] (routeGroups !! path) ++ [route]]> routeGroups)
        routeGroups allRoutes !! path
  = match filter (λ route, documentedPath routePath route = path) allRoutes with
    | [] => routeGroups !! path
    | here => Some (default [] (routeGroups !! path) ++ here)
    end.
Proof.
  revert routeGroups. induction allRoutes as [|route allRoutes IH];
    intros routeGroups; [done|].
  simpl foldl. rewrite IH. fold (documentedPath routePath route).
  destruct (decide (documentedPath routePath route = path)) as [<-|Hne].
  - rewrite filter_cons_True by done. rewrite lookup_insert_eq. simpl.
    destruct (filter _ allRoutes); [done|]. by rewrite <- app_assoc.
  - rewrite filter_cons_False by done. by rewrite lookup_insert_ne.
Qed.

Lemma groupRoutes_lookup routePath allRoutes path :
  groupRoutes routePath allRoutes !! path
  = match filter (λ route, documentedPath routePath route = path) allRoutes with
    | [] => None
    | here => Some here
    end.
Proof.
  unfold groupRoutes. rewrite foldl_groupRoutes_lookup, lookup_empty.
  by destruct (filter _ allRoutes).
Qed.

End DocumentedPaths.

(** ** Paths of an assembled document *)

Section AssembledPaths.
Context {order : RangeOrder}.
Import swagger.

(** [for k, v := range m { dst[k] = f(v) }] from an empty [dst] maps [f]
    over [m]. *)
Lemma range_assign_fmap {A B} (f : A → B) (m : gmap string A) :
  foldl (λ (acc : gmap string B) kv, <[kv.1 := f kv.2]> acc) ∅ (range m) = f <$> m.
Proof.
  assert (Hfold : ∀ l (dst : gmap string B),
    foldl (λ (acc : gmap string B) kv, <[kv.1 := f kv.2]> acc) dst l
    = foldl (λ acc kv, <[kv.1 := kv.2]> acc) dst (prod_map id f <$> l)).
  { induction l as [|[k v] l IH]; intros dst; [done|]. simpl. apply IH. }
  rewrite Hfold. apply map_eq. intros k.
  rewrite foldl_assign_lookup, lookup_empty.
  rewrite (list_to_map_proper _ (prod_map id f <$> range m)).
  - rewrite list_to_map_fmap, list_to_map_range. by destruct ((f <$> m) !! k).
  - rewrite fmap_reverse, reverse_Permutation.
    assert (Hkeys : ∀ l : list (string * A), (prod_map id f <$> l).*1 = l.*1).
    { induction l as [|[k' v'] l IH]; [done|].
      rewrite !fmap_cons. simpl. f_equal. apply IH. }
    rewrite Hkeys. apply range_keys_NoDup.
  - apply reverse_Permutation.
Qed.

Lemma buildPaths_fmap entityName (routeGroups : gmap string (list APIRoute)) :
  buildPaths entityName routeGroups = pathItemOf entityName <$> routeGroups.
Proof. apply range_assign_fmap. Qed.

Lemma operationAt_setMethod pathItem method' operation method :
  method ∈ ["GET"; "POST"; "PUT"; "DELETE"]%string →
  operationAt (setMethod pathItem method' operation) method
  = if decide (method' = method) then Some operation
    else operationAt pathItem method.
Proof.
  intros Hm. unfold operationAt, setMethod.
  repeat (apply elem_of_cons in Hm as [->|Hm]);
    [..|by apply elem_of_nil in Hm];
    repeat case_decide; subst; simpl; try done.
Qed.

Lemma operationAt_foldl (op : APIRoute → Operation) routes pathItem method :
  method ∈ ["GET"; "POST"; "PUT"; "DELETE"]%string →
  operationAt
    (foldl (λ pathItem route, setMethod pathItem (Method route) (op route))
           pathItem routes) method
  = match last (filter (λ route, Method route = method) routes) with
    | Some route => Some (op route)
    | None => operationAt pathItem method
    end.
Proof.
  intros Hm. induction routes as [|route routes IH] using rev_ind; [done|].
  rewrite foldl_app, filter_app. simpl.
  rewrite operationAt_setMethod by done. case_decide as Heq.
  - rewrite filter_cons_True by done. by rewrite filter_nil, last_snoc.
  - rewrite filter_cons_False by done. by rewrite filter_nil, app_nil_r.
Qed.

(** X5. The paths of an assembled document. A path is a key exactly when
    some route is documented under it. Its item then holds, for each of GET,
    POST, PUT and DELETE, the operation generated for the last route of that
    path with that method, and none when there is no such route; a route with
    any other method adds no operation. *)
Theorem assembled_paths entityType basePath routePath allRoutes version path :
  let doc := assembleDocument entityType basePath routePath allRoutes version in
  let entityName := TypeName (derefPtr entityType) in
  let here := filter (λ route, documentedPath routePath route = path) allRoutes in
  let lastOf (method : string) :=
    (λ route, generateOperation route entityName)
      <$> last (filter (λ route, Method route = method) here) in
  match here with
  | [] => Paths doc !! path = None
  | _ => ∃ item, Paths doc !! path = Some item ∧
           Get item = lastOf "GET"%string ∧ Post item = lastOf "POST"%string ∧
           Put item = lastOf "PUT"%string ∧ Delete item = lastOf "DELETE"%string
  end.
Proof.
  intros doc entityName here lastOf. subst doc. unfold assembleDocument. simpl.
  fold entityName. rewrite buildPaths_fmap, lookup_fmap, groupRoutes_lookup.
  fold here. destruct here as [|route here'] eqn:Hhere; [done|].
  exists (pathItemOf entityName (route :: here')). split; [done|].
  assert (Hat : ∀ method, method ∈ ["GET"; "POST"; "PUT"; "DELETE"]%string →
            operationAt (pathItemOf entityName (route :: here')) method
            = lastOf method).
  { intros method Hm. unfold pathItemOf.
    rewrite (operationAt_foldl (λ r, generateOperation r entityName)) by done.
    subst lastOf. simpl.
    destruct (last (filter _ (route :: here'))); [done|].
    unfold operationAt. by repeat case_decide. }
  split; [|split; [|split]].
  - apply (Hat "GET"%string). set_solver.
  - apply (Hat "POST"%string). set_solver.
  - apply (Hat "PUT"%string). set_solver.
  - apply (Hat "DELETE"%string). set_solver.
Qed.

(** X6. The path a route is documented under contains no [":id"], and
    replacing the placeholder in it again changes nothing; so no path key of
    an assembled document contains [":id"]. *)
Theorem documented_paths_have_no_placeholder :
  (∀ routePath route,
     strings_Contains (documentedPath routePath route) ":id" = false ∧
     strings_ReplaceAll (documentedPath routePath route) ":id" "{id}"
     = documentedPath routePath route) ∧
  (∀ entityType basePath routePath allRoutes version path,
     is_Some (Paths (assembleDocument entityType basePath routePath allRoutes version)
                !! path) →
     strings_Contains path ":id" = false).
Proof.
  split.
  - intros routePath route. unfold documentedPath.
    split; [apply replace_id_leaves_none|].
    apply replace_id_without, replace_id_leaves_none.
  - intros entityType basePath routePath allRoutes version path.
    unfold assembleDocument. simpl.
    rewrite buildPaths_fmap, lookup_fmap, groupRoutes_lookup.
    destruct (filter _ allRoutes) as [|route here] eqn:Hhere.
    + by intros [? ?].
    + intros _.
      assert (route ∈ filter (λ route, documentedPath routePath route = path) allRoutes)
        as Hin by (rewrite Hhere; by left).
      apply list_elem_of_filter in Hin as [<- _].
      unfold documentedPath. apply replace_id_leaves_none.
Qed.

(** X17. The body parameter of a create or replace route without a request
    sample is a reference to [#/definitions/{entity}], and the assembled
    document always has that definition: the reference never dangles. The
    body parameter is the last parameter of the operation. *)
Theorem entity_body_reference_is_defined
    entityType basePath routePath allRoutes version route :
  let doc := assembleDocument entityType basePath routePath allRoutes version in
  let entityName := TypeName (derefPtr entityType) in
  Method route = "POST"%string ∨ Method route = "PUT"%string →
  Request route = None →
  last (Op_Parameters (generateOperation route entityName))
    = Some (mkParameter "body" "body" "Request body" true
              (Some (mkSchema [] EmptyString ∅ [] None EmptyString None
                              ("#/definitions/" +:+ entityName)))
              EmptyString) ∧
  is_Some (Definitions doc !! entityName).
Proof.
  intros doc entityName Hmethod Hreq. split.
  - unfold generateOperation. simpl. rewrite decide_True by done. rewrite Hreq.
    by rewrite last_snoc.
  - subst doc. unfold assembleDocument. simpl. fold entityName.
    rewrite collectDefinitions_samples. eexists.
    apply collect_samples_kept; [apply lookup_insert_eq|].
    intros sample _. apply sampleName_not_entity.
Qed.

End AssembledPaths.

(** ** The registry and its merged views *)

Section RegistryMore.
Context {order : RangeOrder}.
Import swagger.

(** X7. Registration and lookup. A fresh generator has no document. After a
    registration, the key [routePath_version] holds the document assembled
    for it, replacing whatever was stored under that key (also a document of
    another route path and version that spell the same key), and every other
    key holds what it held before. *)
Theorem register_then_lookup g entityType basePath routePath allRoutes version key :
  let g' := RegisterEntityWithVersion g entityType basePath routePath allRoutes
                                      version in
  GetSwagger NewGenerator key = None ∧
  GetSwagger g' (routePath +:+ "_" +:+ version)
    = Some (assembleDocument entityType basePath routePath allRoutes version) ∧
  (key ≠ routePath +:+ "_" +:+ version → GetSwagger g' key = GetSwagger g key).
Proof.
  unfold GetSwagger. simpl. split; [apply lookup_empty|]. split.
  - apply lookup_insert_eq.
  - intros Hne. by apply lookup_insert_ne.
Qed.

(** *** Fixed fields of the merged documents *)

Lemma mergeDoc_header doc swagger : header (mergeDoc doc swagger) = header doc.
Proof. reflexivity. Qed.

Lemma foldl_mergeDoc_header group doc :
  header (foldl mergeDoc doc group) = header doc.
Proof.
  revert doc. induction group as [|d group IH]; intros doc; [done|].
  simpl. by rewrite IH, mergeDoc_header.
Qed.

Lemma mergeSwaggers_visit_header visited :
  header (mergeSwaggers_visit visited) = header newMergedDoc.
Proof.
  induction visited as [|entry visited IH] using rev_ind; [done|].
  rewrite mergeSwaggers_visit_snoc. by rewrite <- IH.
Qed.

(** X8. Whatever documents are stored, a merged document of [GetAllSwagger]
    has the fixed fields of the empty version document (format version
    ["2.0"], base path [/api/{version}], scheme [http], JSON in and out, the
    generated title) and the document of [mergeSwaggers] has those of its
    own empty document (host [localhost:8080], base path [/api/v1], version
    ["1.0"]): base path, title and version of the stored documents reach
    neither. *)
Theorem merged_documents_keep_defaults visited :
  (∀ version merged,
     GetAllSwagger_visit visited !! version = Some merged →
     header merged = header (newVersionDoc version) ∧
     BasePath merged = "/api/" +:+ version ∧ Version (SwInfo merged) = version) ∧
  header (mergeSwaggers_visit visited) = header newMergedDoc.
Proof.
  split; [|apply mergeSwaggers_visit_header].
  intros version merged. unfold GetAllSwagger_visit.
  rewrite foldl_mergeIntoVersion_lookup, lookup_empty.
  destruct (versionGroup version visited) as [|d group]; [done|].
  intros [= <-].
  pose proof (foldl_mergeDoc_header (d :: group) (newVersionDoc version)) as Hh.
  split; [exact Hh|]. split.
  - by apply (f_equal (λ h, h.1.1.1.2)) in Hh.
  - by apply (f_equal (λ h, Version h.1.1.1.1.1.2)) in Hh.
Qed.

(** *** Nothing is lost in the merged view *)

Lemma foldl_mergeDoc_grows group doc :
  (∀ path, is_Some (Paths doc !! path) →
           is_Some (Paths (foldl mergeDoc doc group) !! path)) ∧
  (∀ name, is_Some (Definitions doc !! name) →
           is_Some (Definitions (foldl mergeDoc doc group) !! name)) ∧
  (∀ name, name ∈ Tag_Name <$> Tags doc →
           name ∈ Tag_Name <$> Tags (foldl mergeDoc doc group)).
Proof.
  revert doc. induction group as [|d group IH]; intros doc; [done|].
  simpl. destruct (IH (mergeDoc doc d)) as (IHp & IHd & IHt).
  split; [|split].
  - intros path Hp. apply IHp. rewrite mergeDoc_Paths. by apply is_Some_union_r.
  - intros name [schema Hd]. apply IHd. rewrite mergeDoc_Definitions.
    exists schema. by apply lookup_union_Some_l.
  - intros name Hn. apply IHt. rewrite mergeDoc_Tags, mergeTagsDedup_filter.
    rewrite fmap_app. apply elem_of_app. by left.
Qed.

Lemma mergeDoc_covers doc d :
  (∀ path, is_Some (Paths d !! path) →
           is_Some (Paths (mergeDoc doc d) !! path)) ∧
  (∀ name, is_Some (Definitions d !! name) →
           is_Some (Definitions (mergeDoc doc d) !! name)) ∧
  (∀ name, name ∈ Tag_Name <$> Tags d →
           name ∈ Tag_Name <$> Tags (mergeDoc doc d)).
Proof.
  split; [|split].
  - intros path [item Hp]. rewrite mergeDoc_Paths.
    exists item. by apply lookup_union_Some_l.
  - intros name Hd. rewrite mergeDoc_Definitions. by apply is_Some_union_r.
  - intros name Hn. rewrite mergeDoc_Tags, mergeTagsDedup_filter, fmap_app.
    apply elem_of_app.
    destruct (decide (name ∈ Tag_Name <$> Tags doc)) as [Hin|Hnin]; [by left|].
    right. apply list_elem_of_fmap in Hn as (tag & -> & Htag).
    apply list_elem_of_fmap. exists tag. split; [done|].
    apply list_elem_of_filter. split; [|done].
    by rewrite elem_of_list_to_set.
Qed.

Lemma foldl_mergeDoc_covers group doc d :
  d ∈ group →
  (∀ path, is_Some (Paths d !! path) →
           is_Some (Paths (foldl mergeDoc doc group) !! path)) ∧
  (∀ name, is_Some (Definitions d !! name) →
           is_Some (Definitions (foldl mergeDoc doc group) !! name)) ∧
  (∀ name, name ∈ Tag_Name <$> Tags d →
           name ∈ Tag_Name <$> Tags (foldl mergeDoc doc group)).
Proof.
  intros (pre & post & ->)%list_elem_of_split.
  rewrite foldl_app. simpl.
  destruct (foldl_mergeDoc_grows post (mergeDoc (foldl mergeDoc doc pre) d))
    as (Gp & Gd & Gt).
  destruct (mergeDoc_covers (foldl mergeDoc doc pre) d) as (Cp & Cd & Ct).
  split; [|split]; eauto.
Qed.

(** X9. In a generator built by registrations, no stored document is left
    out of the merged view: every stored document is filed under some
    version, and the merged document of that version has every path and
    every definition name of the stored document and a tag of every tag name
    it has (the values under those keys may come from another document of the
    version). *)
Theorem merged_view_covers_every_document g key d :
  registered g → docs g !! key = Some d →
  ∃ version merged,
    keyVersion key = Some version ∧ GetAllSwagger g !! version = Some merged ∧
    (∀ path, is_Some (Paths d !! path) → is_Some (Paths merged !! path)) ∧
    (∀ name, is_Some (Definitions d !! name) →
             is_Some (Definitions merged !! name)) ∧
    (∀ name, name ∈ Tag_Name <$> Tags d → name ∈ Tag_Name <$> Tags merged).
Proof.
  intros Hreg Hd.
  destruct (registered_docs g key d Hreg Hd) as [[routePath ->] _].
  pose proof (keyVersion_registered routePath (Version (SwInfo d))) as Hkey.
  destruct (last (strings_Split (Version (SwInfo d)) "_"%char)) as [version|] eqn:Hlast.
  2: { apply last_None in Hlast. by apply strings_Split_nonempty in Hlast. }
  assert (Hin : d ∈ versionGroup version (range (docs g))).
  { apply elem_of_versionGroup. eexists. split; [|exact Hkey].
    by apply elem_of_range. }
  exists version, (foldl mergeDoc (newVersionDoc version)
                         (versionGroup version (range (docs g)))).
  split; [done|]. split.
  - unfold GetAllSwagger, GetAllSwagger_visit.
    rewrite foldl_mergeIntoVersion_lookup, lookup_empty.
    destruct (versionGroup version (range (docs g))); [by apply elem_of_nil in Hin|done].
  - by apply foldl_mergeDoc_covers.
Qed.

End RegistryMore.

(** ** More on the controller *)

Section ControllerMore.
Import crud.
Context {T Store : Type} `{!ICrudEntity T}.

(** X10. [Create] reaches the repository only with an entity that was bound
    and has passed validation: when binding or validation fails, that error
    is returned, the repository is not called and the store is as before;
    otherwise the repository is called once, with the bound entity as it
    is, and the reply carries the entity as the repository left it, or the
    repository's error. *)
Theorem Create_validates_before_storing
    (validator_Validate : T → option Error)
    (create : T → Store → option Error * T * Store) ctx s log :
  let run := Create validator_Validate (loggedCreate create) ctx (s, log) in
  match BindEntity ctx with
  | inl err => run = (Fail err, (s, log))
  | inr entity =>
      match validator_Validate entity with
      | Some err => run = (Fail err, (s, log))
      | None =>
          run.2.2 = log ++ [entity] ∧ run.2.1 = (create entity s).2 ∧
          run.1 = match (create entity s).1.1 with
                  | Some err => Fail err
                  | None => Ok (Success (PEntity (create entity s).1.2))
                  end
      end
  end.
Proof.
  intros run. subst run. unfold Create, bind, loggedCreate.
  destruct (BindEntity ctx) as [err|entity]; simpl; [done|].
  destruct (validator_Validate entity) as [err|]; simpl; [done|].
  destruct (create entity s) as [[[err|] entity'] s']; done.
Qed.

(** X11. Without a path identifier, [GetById], [Update] and [Delete] answer
    [ErrNotFound] "missing id parameter" before anything else is looked at:
    the body is not bound and the store is not touched. *)
Theorem missing_id_is_NotFound
    (uuid_Parse : string → option UUID) (strconv_ParseUint : string → option Z)
    (validator_Validate : T → option Error)
    (c : CrudController T Store) ctx s :
  Param ctx "id" = EmptyString →
  GetById uuid_Parse strconv_ParseUint c ctx s
    = (Fail (errors_New ErrNotFound "missing id parameter"), s) ∧
  Update strconv_ParseUint validator_Validate c ctx s
    = (Fail (errors_New ErrNotFound "missing id parameter"), s) ∧
  Delete strconv_ParseUint c ctx s
    = (Fail (errors_New ErrNotFound "missing id parameter"), s).
Proof.
  intros Hid. unfold GetById, Update, Delete. by rewrite !decide_True.
Qed.

(** X12. In [Update] the body comes before the identifier: with a path
    identifier present, a body that does not bind, or an entity that fails
    validation, gives that error whether or not the identifier parses and
    whatever the controller's [TID]; the store is not touched. *)
Theorem Update_body_errors_come_first
    (strconv_ParseUint : string → option Z)
    (validator_Validate : T → option Error)
    (c : CrudController T Store) ctx s :
  Param ctx "id" ≠ EmptyString →
  match BindEntity ctx with
  | inl err =>
      Update strconv_ParseUint validator_Validate c ctx s = (Fail err, s)
  | inr entity =>
      ∀ err, validator_Validate entity = Some err →
             Update strconv_ParseUint validator_Validate c ctx s = (Fail err, s)
  end.
Proof.
  intros Hid. unfold Update, bind. rewrite decide_False by done.
  destruct (BindEntity ctx) as [err|entity]; simpl; [done|].
  by intros err ->.
Qed.

(** X13. A controller whose [TID] is the UUID representation cannot update
    or delete: whatever the request, the parsers and the repository, [Update]
    and [Delete] never succeed and never call the repository (they answer an
    error, or panic at [any(idInt).(TID)] when the identifier is numeric). *)
Theorem uuid_controller_cannot_update_or_delete
    (strconv_ParseUint : string → option Z)
    (validator_Validate : T → option Error)
    (R : IRepository T Store) ctx s log :
  let c := mkController TUUID (traced R) in
  let updated := Update strconv_ParseUint validator_Validate c ctx (s, log) in
  let deleted := Delete strconv_ParseUint c ctx (s, log) in
  updated.2 = (s, log) ∧ (∀ reply, updated.1 ≠ Ok reply) ∧
  deleted.2 = (s, log) ∧ (∀ reply, deleted.1 ≠ Ok reply).
Proof.
  intros c updated deleted. subst updated deleted c. unfold Update, Delete, bind.
  split; [|split; [|split]].
  - case_decide; [done|].
    destruct (BindEntity ctx) as [err|entity]; simpl; [done|].
    destruct (validator_Validate entity); simpl; [done|].
    by destruct (strconv_ParseUint (Param ctx "id")).
  - case_decide; [done|].
    destruct (BindEntity ctx) as [err|entity]; simpl; [done|].
    destruct (validator_Validate entity); simpl; [done|].
    by destruct (strconv_ParseUint (Param ctx "id")).
  - case_decide; [done|]. by destruct (strconv_ParseUint (Param ctx "id")).
  - case_decide; [done|]. by destruct (strconv_ParseUint (Param ctx "id")).
Qed.

(** X14. In an integer-ID controller, [Delete] with a path identifier that
    parses calls the repository once, with the parsed identifier, and answers
    the empty success or the repository's error. *)
Theorem Delete_hands_path_id_to_repository
    (strconv_ParseUint : string → option Z)
    (R : IRepository T Store) ctx s log idInt :
  Param ctx "id" ≠ EmptyString →
  strconv_ParseUint (Param ctx "id") = Some idInt →
  let run := Delete strconv_ParseUint (mkController TUint64 (traced R)) ctx (s, log) in
  run.2 = ((Repo_DeleteById R (AnyUint64 idInt) s).2,
           log ++ [CallDeleteById (AnyUint64 idInt)]) ∧
  run.1 = match (Repo_DeleteById R (AnyUint64 idInt) s).1 with
          | Some err => Fail err
          | None => Ok (Success PNil)
          end.
Proof.
  intros Hid Hp run. subst run. unfold Delete, bind.
  rewrite decide_False by done. rewrite Hp. simpl.
  destruct (Repo_DeleteById R (AnyUint64 idInt) s) as [[err|] s']; done.
Qed.

(** X15. [GetById] on an identifier of the controller's own representation
    (a string [uuid.Parse] accepts, for a UUID controller; a string it
    rejects and [strconv.ParseUint] accepts, for an integer controller):
    the repository is asked for that identifier, and the answer is its
    error, [ErrNotFound] "record not found" when it finds nothing, or the
    entity found; the store is as before. And whenever [uuid.Parse] accepts
    the string, the integer parser has no say in the result. *)
Theorem GetById_own_representation
    (uuid_Parse : string → option UUID) (strconv_ParseUint : string → option Z)
    (c : CrudController T Store) ctx s :
  Param ctx "id" ≠ EmptyString →
  (∀ id,
     (∃ idUUID, TID c = TUUID ∧ uuid_Parse (Param ctx "id") = Some idUUID ∧
                id = AnyUUID idUUID) ∨
     (∃ idInt, TID c = TUint64 ∧ uuid_Parse (Param ctx "id") = None ∧
               strconv_ParseUint (Param ctx "id") = Some idInt ∧
               id = AnyUint64 idInt) →
     GetById uuid_Parse strconv_ParseUint c ctx s
     = (match Repo_FindById (Repository c) id s with
        | inl err => Fail err
        | inr None => Fail (errors_New ErrNotFound "record not found")
        | inr (Some entity) => Ok (Success (PEntity entity))
        end, s)) ∧
  (is_Some (uuid_Parse (Param ctx "id")) →
   ∀ otherParser : string → option Z,
     GetById uuid_Parse otherParser c ctx s
     = GetById uuid_Parse strconv_ParseUint c ctx s).
Proof.
  intros Hid. split.
  - intros id Hcase. unfold GetById, bind, lift. rewrite decide_False by done.
    rewrite decodeId_cases.
    destruct Hcase as [(u & Htid & Hu & ->)|(n & Htid & Hu & Hn & ->)].
    + rewrite Hu. unfold mustAssert, typeAssert. rewrite Htid. simpl.
      by destruct (Repo_FindById (Repository c) (AnyUUID u) s) as [err|[e|]].
    + rewrite Hu, Hn. unfold mustAssert, typeAssert. rewrite Htid. simpl.
      by destruct (Repo_FindById (Repository c) (AnyUint64 n) s) as [err|[e|]].
  - intros [u Hu] otherParser. unfold GetById, bind, lift.
    rewrite !decide_False by done. by rewrite !decodeId_cases, Hu.
Qed.

(** X16. A batch that passes validation and whose repository operation
    succeeds is committed: the store is the one the operation produced, and
    the reply carries the entities as the operation left them (nothing, for
    [BatchDelete] on a non-empty array of identifiers). *)
Theorem batch_success_commits
    (validator_Validate : T → option Error)
    (c : CrudController T Store) ctx s :
  (∀ entities left s',
     BindEntities ctx = inr entities →
     Forall (λ e, validator_Validate e = None) entities →
     (Repo_BatchCreate (Repository c) entities s = (None, left, s') →
      BatchCreate validator_Validate c ctx s = (Ok (Success (PEntities left)), s')) ∧
     (Repo_BatchUpdate (Repository c) entities s = (None, left, s') →
      BatchUpdate validator_Validate c ctx s = (Ok (Success (PEntities left)), s'))) ∧
  (∀ ids s',
     BindIds ctx = inr ids → ids ≠ [] →
     Repo_BatchDelete (Repository c) ids s = (None, s') →
     BatchDelete c ctx s = (Ok (Success PNil), s')).
Proof.
  split.
  - intros entities left s' Hb Hvalid.
    unfold BatchCreate, BatchUpdate, bind, inTransaction, Transaction.
    rewrite Hb. simpl. rewrite (validateEach_valid validator_Validate) by done.
    simpl. split; by intros ->.
  - intros ids s' Hb Hne Hop.
    unfold BatchDelete, bind, inTransaction, Transaction. rewrite Hb. simpl.
    rewrite decide_False by (by destruct ids). by rewrite Hop.
Qed.

End ControllerMore.

(** ** The further properties on the samples *)

Section MoreSamples.
Import swagger samples.
#[local] Existing Instance canonical_order.

(** X1, witness: ["name"], required in [User], is a property of its schema. *)
Lemma required_names_are_properties_witness :
  is_Some (Properties (generateSchema User) !! "name"%string).
Proof.
  apply (required_names_are_properties User "name"%string).
  vm_compute. apply elem_of_cons. by left.
Defined.

(** X4, witness: [Account] without its skipped field [Password] has the
    same schema. *)
Lemma inert_field_leaves_no_trace_witness :
  generateSchema (TStruct "Account" "models.Account"
                    ([baseField] ++ passwordField :: [emailField; phoneField]))
  = generateSchema (TStruct "Account" "models.Account"
                      ([baseField] ++ [emailField; phoneField])).
Proof.
  apply (inert_field_leaves_no_trace "Account" "models.Account"
           [baseField] passwordField [emailField; phoneField]).
  exact I.
Defined.

(** X6, witness: the path key [/users/{id}] of the document of [users]. *)
Lemma documented_paths_have_no_placeholder_witness :
  strings_Contains "/users/{id}" ":id" = false.
Proof.
  apply (proj2 documented_paths_have_no_placeholder
           User "/api/v1"%string "users"%string crudRoutes "v1"%string
           "/users/{id}"%string).
  vm_compute. by eexists.
Defined.

(** X7, witness: registering [users] leaves the key [orders_v1] as it was. *)
Lemma register_then_lookup_witness :
  GetSwagger (RegisterEntityWithVersion NewGenerator User "/api/v1" "users"
                                        crudRoutes "v1") "orders_v1"
  = GetSwagger NewGenerator "orders_v1".
Proof.
  apply (register_then_lookup NewGenerator User "/api/v1"%string "users"%string
           crudRoutes "v1"%string "orders_v1"%string).
  discriminate.
Defined.

(** X8, witness: the merged document of [v1] has base path [/api/v1]. *)
Lemma merged_documents_keep_defaults_witness :
  BasePath <$> (GetAllSwagger registry !! "v1"%string) = Some "/api/v1"%string.
Proof.
  destruct (GetAllSwagger registry !! "v1"%string) as [merged|] eqn:E.
  - simpl. f_equal.
    apply (proj1 (merged_documents_keep_defaults (range (docs registry)))
             "v1"%string merged E).
  - vm_compute in E. discriminate E.
Defined.

(** X9, witness: the document of [users] under [v1] is covered by the
    merged document of its version. *)
Lemma merged_view_covers_every_document_witness :
  ∃ version merged,
    keyVersion "users_v1" = Some version ∧
    GetAllSwagger registry !! version = Some merged ∧
    (∀ path, is_Some (Paths usersV1Doc !! path) → is_Some (Paths merged !! path)) ∧
    (∀ name, is_Some (Definitions usersV1Doc !! name) →
             is_Some (Definitions merged !! name)) ∧
    (∀ name, name ∈ Tag_Name <$> Tags usersV1Doc → name ∈ Tag_Name <$> Tags merged).
Proof.
  apply (merged_view_covers_every_document registry "users_v1"%string usersV1Doc
           registry_registered).
  vm_compute. reflexivity.
Defined.

(** X17, witness: the create route of [users]. *)
Lemma entity_body_reference_is_defined_witness :
  last (Op_Parameters (generateOperation (route "POST" "" None None) "User"))
    = Some (mkParameter "body" "body" "Request body" true
              (Some (mkSchema [] EmptyString ∅ [] None EmptyString None
                              "#/definitions/User"))
              EmptyString) ∧
  is_Some (Definitions usersV1Doc !! "User"%string).
Proof.
  apply (entity_body_reference_is_defined User "/api/v1"%string "users"%string
           crudRoutes "v1"%string (route "POST" "" None None)).
  - by left.
  - reflexivity.
Defined.

End MoreSamples.

Section MoreSampleRequests.
Import crud.

(** X11, witness: the three handlers on a request without identifier. *)
Lemma missing_id_is_NotFound_witness :
  GetById uuid_Parse ParseUint_10_64 (userController TUint64) (pathRequest "") sampleStore
    = (Fail (errors_New ErrNotFound "missing id parameter"), sampleStore) ∧
  Update ParseUint_10_64 userValidate (userController TUint64) (pathRequest "") sampleStore
    = (Fail (errors_New ErrNotFound "missing id parameter"), sampleStore) ∧
  Delete ParseUint_10_64 (userController TUint64) (pathRequest "") sampleStore
    = (Fail (errors_New ErrNotFound "missing id parameter"), sampleStore).
Proof.
  apply (missing_id_is_NotFound uuid_Parse ParseUint_10_64 userValidate
           (userController TUint64) (pathRequest "") sampleStore).
  reflexivity.
Defined.

(** X12, witness: an invalid body on an unparseable identifier reports the
    validation error. *)
Lemma Update_body_errors_come_first_witness :
  Update ParseUint_10_64 userValidate (userController TUint64)
         (request "abc" (inr nameless) noBody noBody) sampleStore
  = (Fail (ValidationError "Name is required"), sampleStore).
Proof.
  pose proof (Update_body_errors_come_first ParseUint_10_64 userValidate
                (userController TUint64)
                (request "abc" (inr nameless) noBody noBody) sampleStore) as Hbody.
  simpl in Hbody. apply Hbody; [discriminate|reflexivity].
Defined.

(** X14, witness: [Delete] on path identifier ["1"]. *)
Lemma Delete_hands_path_id_to_repository_witness :
  (Delete ParseUint_10_64 (mkController TUint64 (traced memRepository))
          (pathRequest "1") (sampleStore, [])).2
  = ([], [CallDeleteById (AnyUint64 1)]).
Proof.
  apply (Delete_hands_path_id_to_repository ParseUint_10_64 memRepository
           (pathRequest "1") sampleStore [] 1); [discriminate|reflexivity].
Defined.

(** X15, witness: [GetById] on ["1"] in an integer-ID controller. *)
Lemma GetById_own_representation_witness :
  GetById uuid_Parse ParseUint_10_64 (userController TUint64)
          (pathRequest "1") sampleStore
  = (Ok (Success (PEntity ann)), sampleStore).
Proof.
  apply (proj1 (GetById_own_representation uuid_Parse ParseUint_10_64
                  (userController TUint64) (pathRequest "1") sampleStore
                  ltac:(discriminate)) (AnyUint64 1)).
  right. exists 1. repeat split; reflexivity.
Defined.

(** X16, witness: a valid batch of two users is stored. *)
Lemma batch_success_commits_witness :
  BatchCreate userValidate (userController TUint64)
              (request "" noBody (inr [bob; dan]) noBody) sampleStore
  = (Ok (Success (PEntities [bob; dan])), [ann; bob; dan]).
Proof.
  apply (proj1 (batch_success_commits userValidate (userController TUint64)
                  (request "" noBody (inr [bob; dan]) noBody) sampleStore)
           [bob; dan] [bob; dan] [ann; bob; dan]); [reflexivity| |reflexivity].
  repeat (apply Forall_cons; split; [reflexivity|]). apply Forall_nil_2.
Defined.

(** [Create] on the in-memory repository: the stored user gets the next
    identifier, whatever identifier the body carried. *)
Example Create_sample :
  Create userValidate (loggedCreate memCreate)
         (request "" (inr (mkUser (AnyUint64 99) "eve")) noBody noBody)
         (sampleStore, [])
  = (Ok (Success (PEntity (mkUser (AnyUint64 2) "eve"))),
     ([ann; mkUser (AnyUint64 2) "eve"], [mkUser (AnyUint64 99) "eve"])).
Proof. reflexivity. Qed.

(** X13, witness: in a UUID controller, [Update] and [Delete] on the numeric
    identifier ["1"] leave store and call log as they were. *)
Lemma uuid_controller_cannot_update_or_delete_witness :
  (Update ParseUint_10_64 userValidate (mkController TUUID (traced memRepository))
          (request "1" (inr ann) noBody noBody) (sampleStore, [])).2
    = (sampleStore, []) ∧
  (Delete ParseUint_10_64 (mkController TUUID (traced memRepository))
          (pathRequest "1") (sampleStore, [])).2
    = (sampleStore, []).
Proof.
  split.
  - apply (uuid_controller_cannot_update_or_delete ParseUint_10_64 userValidate
             memRepository (request "1" (inr ann) noBody noBody) sampleStore []).
  - apply (uuid_controller_cannot_update_or_delete ParseUint_10_64 userValidate
             memRepository (pathRequest "1") sampleStore []).
Defined.

End MoreSampleRequests.
